(** * Voice-catalog construction of wyoming_cloud_streamer

    A shallow embedding of [main] in [wyoming_cloud_streamer/__main__.py]:
    loading the builtin table, merging the optional custom table, building
    one [TtsVoice] per (provider, voice, language) and sorting the result
    for the Wyoming [Info] message.

    The tables are what [json.load] returns, so they are modelled as
    untyped JSON values and every Python operation the code applies to them
    is a partial function that raises the exception Python raises. *)

From Stdlib Require Import String Ascii ZArith QArith Sorted Permutation.
From Stdlib Require Import OrderedTypeEx.
From stdpp Require Import base list strings sorting.

Set Warnings "-register-all".
Local Open Scope string_scope.
Local Open Scope list_scope.

(** ** Values returned by [json.load] *)

(** Numbers are kept by their exact value: Python compares [int] and
    [float] by value, and no operation below distinguishes them otherwise.
    The non-standard constants NaN and Infinity are outside the model.
    A [dict] keeps its insertion order, which decides the order of the
    voices built from it, so it is an association list; [json.load] never
    yields a repeated key (see [dict_wf]). Strings are sequences of
    characters of [ascii]; a [str] with characters outside ASCII stands
    as its UTF-8 encoding, which equality, order, concatenation and the
    search for a substring or for an underscore respect. *)
Inductive json : Type :=
| JNull
| JBool (b : bool)
| JNum (q : Q)
| JStr (s : string)
| JArr (items : list json)
| JObj (members : list (string * json)).

(** ** Exceptions *)

Inductive exn : Type :=
| FileNotFoundError
| OSError                (* any other failure to open or read a file *)
| UnicodeDecodeError
| JSONDecodeError
| ValueError             (* as for a path with a null character *)
| AttributeError
| TypeError
| KeyError (key : string).

Inductive result (A : Type) : Type :=
| Ok (a : A)
| Raise (e : exn).
Arguments Ok {A} a.
Arguments Raise {A} e.

Definition bind {A B} (r : result A) (k : A -> result B) : result B :=
  match r with
  | Ok a => k a
  | Raise e => Raise e
  end.

Notation "x <- r ;; k" := (bind r (fun x => k))
  (at level 100, r at next level, right associativity).

Definition raises {A} (r : result A) : Prop :=
  match r with Ok _ => False | Raise _ => True end.

(** ** Python dictionaries with string keys *)

Section Dict.
Context {A : Type}.

Fixpoint dict_get (k : string) (d : list (string * A)) : option A :=
  match d with
  | [] => None
  | (k', v) :: d' => if String.eqb k k' then Some v else dict_get k d'
  end.

(** [d[k] = v]: an existing key keeps its position, a new key goes last. *)
Fixpoint dict_set (k : string) (v : A) (d : list (string * A)) : list (string * A) :=
  match d with
  | [] => [(k, v)]
  | (k', v') :: d' =>
      if String.eqb k k' then (k', v) :: d' else (k', v') :: dict_set k v d'
  end.

Definition dict_mem (k : string) (d : list (string * A)) : bool :=
  match dict_get k d with Some _ => true | None => false end.

Definition dict_keys (d : list (string * A)) : list string := map fst d.

Definition dict_wf (d : list (string * A)) : Prop := NoDup (dict_keys d).
End Dict.

(** ** Python strings *)

(** [s.replace(old, new, 1)] for one-character [old] and [new]. *)
Fixpoint replace_first (old new : ascii) (s : string) : string :=
  match s with
  | EmptyString => EmptyString
  | String c r =>
      if Ascii.eqb c old then String new r else String c (replace_first old new r)
  end.

Definition is_upper (c : ascii) : bool :=
  (65 <=? nat_of_ascii c)%nat && (nat_of_ascii c <=? 90)%nat.
Definition is_lower (c : ascii) : bool :=
  (97 <=? nat_of_ascii c)%nat && (nat_of_ascii c <=? 122)%nat.

Definition upper_char (c : ascii) : ascii :=
  if is_lower c then ascii_of_nat (nat_of_ascii c - 32) else c.
Definition lower_char (c : ascii) : ascii :=
  if is_upper c then ascii_of_nat (nat_of_ascii c + 32) else c.

Fixpoint lower (s : string) : string :=
  match s with
  | EmptyString => EmptyString
  | String c r => String (lower_char c) (lower r)
  end.

(** [s.capitalize()] on a string of ASCII characters: the first character
    in upper case and the rest in lower case. *)
Definition ascii_capitalize (s : string) : string :=
  match s with
  | EmptyString => EmptyString
  | String c r => String (upper_char c) (lower r)
  end.

Definition is_ascii_char (c : ascii) : bool := (nat_of_ascii c <? 128)%nat.

Fixpoint is_ascii (s : string) : bool :=
  match s with
  | EmptyString => true
  | String c r => is_ascii_char c && is_ascii r
  end.

(** [s.capitalize()] in general. Outside ASCII the case of a character
    comes from the Unicode character database of the interpreter, which is
    no part of this repository: the method is a parameter of everything
    built on it, known only to be [ascii_capitalize] on strings of ASCII
    characters. *)
Class UnicodeCase : Type := {
  capitalize : string -> string;
  capitalize_ascii : forall s, is_ascii s = true -> capitalize s = ascii_capitalize s
}.

(** The case mapping that leaves every character outside ASCII alone. It
    stands in for the interpreter's where all the strings are ASCII, as in
    the examples below. *)
#[global] Instance ascii_case : UnicodeCase :=
  {| capitalize := ascii_capitalize;
     capitalize_ascii := fun _ _ => eq_refl |}.

(** [t in s] for two strings. *)
Fixpoint is_substring (t s : string) : bool :=
  String.prefix t s
  || match s with
     | EmptyString => false
     | String _ s' => is_substring t s'
     end.

(** Iterating a string yields its characters as strings of length one
    (the characters of an ASCII string; see [json] for the others). *)
Fixpoint chars (s : string) : list string :=
  match s with
  | EmptyString => []
  | String c r => String c EmptyString :: chars r
  end.

(** ** Python operations on JSON values *)

Definition num_of_bool (b : bool) : Q := if b then 1%Q else 0%Q.

(** [a == b]. [True == 1] and [False == 0] hold in Python; two dicts are
    equal when they have the same keys with equal values, in any order. *)
Fixpoint py_eq (a b : json) {struct a} : bool :=
  match a, b with
  | JNull, JNull => true
  | JBool x, JBool y => Bool.eqb x y
  | JBool x, JNum q => Qeq_bool (num_of_bool x) q
  | JNum p, JBool y => Qeq_bool p (num_of_bool y)
  | JNum p, JNum q => Qeq_bool p q
  | JStr s, JStr t => String.eqb s t
  | JArr xs, JArr ys =>
      (fix all2 (xs ys : list json) : bool :=
         match xs, ys with
         | [], [] => true
         | x :: xs', y :: ys' => py_eq x y && all2 xs' ys'
         | _, _ => false
         end) xs ys
  | JObj ms, JObj ns =>
      Nat.eqb (length ms) (length ns)
      && (fix all (ms : list (string * json)) : bool :=
            match ms with
            | [] => true
            | (k, v) :: ms' =>
                match dict_get k ns with
                | Some w => py_eq v w
                | None => false
                end && all ms'
            end) ms
  | _, _ => false
  end.

(** [d.items()] *)
Definition py_items (d : json) : result (list (string * json)) :=
  match d with
  | JObj ms => Ok ms
  | _ => Raise AttributeError
  end.

(** [d.keys()] *)
Definition py_keys (d : json) : result (list string) :=
  match d with
  | JObj ms => Ok (dict_keys ms)
  | _ => Raise AttributeError
  end.

(** [d.get(k, default)] *)
Definition py_get (d : json) (k : string) (default : json) : result json :=
  match d with
  | JObj ms => Ok (match dict_get k ms with Some v => v | None => default end)
  | _ => Raise AttributeError
  end.

(** [d[k]] for a string [k] *)
Definition py_getitem (d : json) (k : string) : result json :=
  match d with
  | JObj ms =>
      match dict_get k ms with
      | Some v => Ok v
      | None => Raise (KeyError k)
      end
  | _ => Raise TypeError
  end.

(** [d[k] = v] for a string [k] *)
Definition py_setitem (d : json) (k : string) (v : json) : result json :=
  match d with
  | JObj ms => Ok (JObj (dict_set k v ms))
  | _ => Raise TypeError
  end.

(** [for x in c]: the elements of a list, the characters of a string, the
    keys of a dict. *)
Definition py_iter (c : json) : result (list json) :=
  match c with
  | JArr xs => Ok xs
  | JStr s => Ok (map JStr (chars s))
  | JObj ms => Ok (map JStr (dict_keys ms))
  | _ => Raise TypeError
  end.

(** [v in c]. A list compares element by element; a string accepts only a
    string on the left and looks for a substring; a dict hashes [v], which
    fails on lists and dicts, and then looks [v] up among its keys. *)
Definition py_in (v c : json) : result bool :=
  match c with
  | JArr xs => Ok (existsb (py_eq v) xs)
  | JStr s =>
      match v with
      | JStr t => Ok (is_substring t s)
      | _ => Raise TypeError
      end
  | JObj ms =>
      match v with
      | JArr _ | JObj _ => Raise TypeError
      | JStr t => Ok (dict_mem t ms)
      | _ => Ok false
      end
  | _ => Raise TypeError
  end.

(** [c.append(v)] *)
Definition py_append (c v : json) : result json :=
  match c with
  | JArr xs => Ok (JArr (xs ++ [v]))
  | _ => Raise AttributeError
  end.

(** The receiver of a [str] method, as in [language.replace(...)] *)
Definition py_str_receiver (v : json) : result string :=
  match v with
  | JStr s => Ok s
  | _ => Raise AttributeError
  end.

(** The right operand of [str + v] *)
Definition py_str_operand (v : json) : result string :=
  match v with
  | JStr s => Ok s
  | _ => Raise TypeError
  end.

(** ** The records of [wyoming.info] that [main] builds *)

Record Attribution : Type := {
  at_name : string;
  at_url : string
}.

Record TtsVoiceSpeaker : Type := {
  sp_name : string
}.

Record TtsVoice : Type := {
  tv_name : string;
  tv_description : string;
  tv_attribution : Attribution;
  tv_installed : bool;
  tv_version : option string;
  tv_languages : list string;
  tv_speakers : option (list TtsVoiceSpeaker)
}.

Record TtsProgram : Type := {
  tp_name : string;
  tp_description : string;
  tp_attribution : Attribution;
  tp_installed : bool;
  tp_voices : list TtsVoice;
  tp_version : string;
  tp_supports_synthesize_streaming : bool
}.

Record Info : Type := {
  tts : list TtsProgram
}.

(** ** Merging the custom table (lines 69-84)

    The block mutates [voices_data] in place and may raise half-way, after
    which [main] goes on with the table as it then is. A statement is
    therefore a function from the table to the table it leaves and either
    a value or the exception it raised. *)

Definition M (A : Type) : Type := json -> json * result A.

Definition ret {A} (a : A) : M A := fun vd => (vd, Ok a).

Definition lift {A} (r : result A) : M A := fun vd => (vd, r).

Definition get : M json := fun vd => (vd, Ok vd).

Definition put (vd' : json) : M unit := fun _ => (vd', Ok tt).

Definition mbind {A B} (m : M A) (k : A -> M B) : M B :=
  fun vd =>
    match m vd with
    | (vd', Ok a) => k a vd'
    | (vd', Raise e) => (vd', Raise e)
    end.

Declare Scope stmt_scope.
Delimit Scope stmt_scope with stmt.
Notation "x <- m ;; k" := (mbind m (fun x => k))
  (at level 100, m at next level, right associativity) : stmt_scope.
Notation "m ;; k" := (mbind m (fun _ => k))
  (at level 100, right associativity) : stmt_scope.

(** [voices_data[provider][k] = value] *)
Definition store_field (provider k : string) (value : json) : M unit :=
  (voices_data <- get ;;
   entry <- lift (py_getitem voices_data provider) ;;
   entry' <- lift (py_setitem entry k value) ;;
   voices_data' <- lift (py_setitem voices_data provider entry') ;;
   put voices_data')%stmt.

(** The loop of lines 75-77 (and 81-83). [base] is the list the local
    variable refers to. When [get] found the key, that list is the very
    object stored in the table ([aliased]), so an [append] shows in
    [voices_data] at once; otherwise it is the fresh default [[]], which
    only line 78 (84) stores. *)
Fixpoint merge_loop (aliased : bool) (provider k : string)
    (items : list json) (base : json) : M json :=
  match items with
  | [] => ret base
  | v :: rest =>
      (present <- lift (py_in v base) ;;
       if present : bool then merge_loop aliased provider k rest base
       else
         base' <- lift (py_append base v) ;;
         (if aliased then store_field provider k base' else ret tt) ;;
         merge_loop aliased provider k rest base')%stmt
  end.

Definition has_key (entry : json) (k : string) : bool :=
  match entry with
  | JObj ms => dict_mem k ms
  | _ => false
  end.

(** Lines 74-78 for [k = "voices"], lines 80-84 for [k = "languages"]. *)
Definition merge_field (k provider : string) (pdata : json) : M unit :=
  (voices_data <- get ;;
   entry <- lift (py_getitem voices_data provider) ;;
   base <- lift (py_get entry k (JArr [])) ;;
   extra <- lift (py_get pdata k (JArr [])) ;;
   items <- lift (py_iter extra) ;;
   merged <- merge_loop (has_key entry k) provider k items base ;;
   store_field provider k merged)%stmt.

(** The body of the loop over [custom_data.items()], lines 70-84. *)
Definition merge_provider (provider : string) (pdata : json) : M unit :=
  (voices_data <- get ;;
   present <- lift (py_in (JStr provider) voices_data) ;;
   if present : bool then
     merge_field "voices" provider pdata ;;
     merge_field "languages" provider pdata
   else
     voices_data' <- lift (py_setitem voices_data provider pdata) ;;
     put voices_data')%stmt.

Fixpoint merge_items (items : list (string * json)) : M unit :=
  match items with
  | [] => ret tt
  | (provider, pdata) :: rest =>
      (merge_provider provider pdata ;; merge_items rest)%stmt
  end.

(** Lines 69-84. *)
Definition merge_custom (custom_data : json) : M unit :=
  (items <- lift (py_items custom_data) ;; merge_items items)%stmt.

(** ** Building the voices (lines 90-124) *)

(** [language.replace('_', '-', 1)] *)
Definition normalize_language (language : string) : string :=
  replace_first "_"%char "-"%char language.

(** Lines 94-124 once [voice] and [language] are known to be strings. *)
Definition tts_voice {U : UnicodeCase} (key voice language : string) : TtsVoice :=
  let '(voice_name, voice_description, attribution) :=
    if String.eqb key "google" then
      ((normalize_language language ++ "-Chirp3-HD-" ++ voice)%string,
       ("google_" ++ voice)%string,
       {| at_name := "Google";
          at_url := "https://cloud.google.com/text-to-speech/docs/chirp3-hd" |})
    else if String.eqb key "openai" then
      ((normalize_language language ++ "-openai-" ++ voice)%string,
       ("openai_" ++ voice)%string,
       {| at_name := "OpenAI";
          at_url := "https://platform.openai.com/docs/guides/text-to-speech" |})
    else
      ((normalize_language language ++ "-" ++ key ++ "-" ++ voice)%string,
       (key ++ "_" ++ voice)%string,
       {| at_name := capitalize key; at_url := "" |})
  in
  {| tv_name := voice_name;
     tv_description := voice_description;
     tv_attribution := attribution;
     tv_installed := true;
     tv_version := None;
     tv_languages := [language];
     tv_speakers := None |}.

(** The body of the innermost loop, lines 94-124. Each branch computes the
    name first, as [language.replace(...) + ... + voice]: a [language] that
    is no string raises AttributeError, and only then does a [voice] that
    is no string raise TypeError. *)
Definition describe {U : UnicodeCase} (key : string) (voice language : json)
    : result TtsVoice :=
  l <- py_str_receiver language ;;
  v <- py_str_operand voice ;;
  Ok (tts_voice key v l).

(** A [for] loop whose body appends to [voices]; the first exception ends it. *)
Fixpoint for_each {A B} (body : A -> result (list B)) (xs : list A) : result (list B) :=
  match xs with
  | [] => Ok []
  | x :: rest =>
      ys <- body x ;;
      zs <- for_each body rest ;;
      Ok (ys ++ zs)
  end.

(** Lines 93-124: [voices_data[key]["languages"]] is evaluated anew for
    every voice, and not at all when there is no voice. *)
Definition languages_loop {U : UnicodeCase} (voices_data : json) (key : string)
    (voice : json)
    : result (list TtsVoice) :=
  entry <- py_getitem voices_data key ;;
  languages <- py_getitem entry "languages" ;;
  items <- py_iter languages ;;
  for_each (fun language => v <- describe key voice language ;; Ok [v]) items.

(** Lines 92-124. *)
Definition voices_loop {U : UnicodeCase} (voices_data : json) (key : string)
    : result (list TtsVoice) :=
  entry <- py_getitem voices_data key ;;
  voices <- py_getitem entry "voices" ;;
  items <- py_iter voices ;;
  for_each (languages_loop voices_data key) items.

(** Lines 90-124. *)
Definition synthesize {U : UnicodeCase} (voices_data : json) : result (list TtsVoice) :=
  keys <- py_keys voices_data ;;
  for_each (voices_loop voices_data) keys.

(** ** The advertised [Info] (lines 126-140) *)

Fixpoint insert_by_name (x : TtsVoice) (l : list TtsVoice) : list TtsVoice :=
  match l with
  | [] => [x]
  | y :: l' =>
      if String.leb (tv_name x) (tv_name y) then x :: l
      else y :: insert_by_name x l'
  end.

(** [sorted(voices, key=lambda v: v.name)]. Python's [sorted] is stable,
    and a list has one stable ascending arrangement, which this insertion
    from the right computes: a voice goes before the voices of equal name
    that followed it. *)
Definition sorted (voices : list TtsVoice) : list TtsVoice :=
  foldr insert_by_name [] voices.

Definition wyoming_info (version : string) (voices : list TtsVoice) : Info :=
  {| tts :=
       [ {| tp_name := "Cloud TTS Streamer";
            tp_description := "Wyoming streaming proxy for cloud TTS providers";
            tp_attribution :=
              {| at_name := "eslavnov";
                 at_url := "https://github.com/eslavnov/wyoming-cloud-streamer" |};
            tp_installed := true;
            tp_voices := sorted voices;
            tp_version := version;
            tp_supports_synthesize_streaming := true |} ] |}.

(** ** [main] up to the start of the server (lines 47-140) *)

(** What [main] reads from outside: the outcome of opening and parsing
    voices.json, the environment variable, the outcome of
    [custom_file.exists()] (which raises OSError when the path cannot be
    examined), and the outcome of opening and parsing the custom file. *)
Record environment : Type := {
  voices_file : result json;
  CUSTOM_VOICES_PATH : string;
  custom_file_exists : result bool;
  custom_file : result json
}.

Inductive log_record : Type :=
| BuiltinNotFound
| CustomFileMissing
| CustomFailed (e : exn).

(** Lines 50-55: [except FileNotFoundError] logs and raises again; every
    other exception is not caught at all. *)
Definition load_builtin (env : environment) : list log_record * result json :=
  match voices_file env with
  | Ok voices_data => ([], Ok voices_data)
  | Raise FileNotFoundError => ([BuiltinNotFound], Raise FileNotFoundError)
  | Raise e => ([], Raise e)
  end.

(** Lines 60-88: [except Exception] logs whatever the block raised, the
    existence test of line 64 included, and leaves [voices_data] as the
    block left it. *)
Definition apply_custom (env : environment) (voices_data : json)
    : list log_record * json :=
  if String.eqb (CUSTOM_VOICES_PATH env) "" then ([], voices_data)
  else
    match custom_file_exists env with
    | Raise e => ([CustomFailed e], voices_data)
    | Ok true =>
        match custom_file env with
        | Raise e => ([CustomFailed e], voices_data)
        | Ok custom_data =>
            match merge_custom custom_data voices_data with
            | (voices_data', Ok _) => ([], voices_data')
            | (voices_data', Raise e) => ([CustomFailed e], voices_data')
            end
        end
    | Ok false => ([CustomFileMissing], voices_data)
    end.

(** [main] returns what it hands to the server: [wyoming_info] and the
    unsorted [voices]. [version] is [__version__] of the package. *)
Definition main {U : UnicodeCase} (version : string) (env : environment)
    : list log_record * result (Info * list TtsVoice) :=
  match load_builtin env with
  | (log, Raise e) => (log, Raise e)
  | (log, Ok voices_data) =>
      let '(log', voices_data') := apply_custom env voices_data in
      (log ++ log',
       voices <- synthesize voices_data' ;;
       Ok (wyoming_info version voices, voices))
  end.

(** The catalog: the voices of the advertised program. *)
Definition catalog {U : UnicodeCase} (version : string) (env : environment)
    : result (list TtsVoice) :=
  r <- snd (main version env) ;;
  Ok (flat_map tp_voices (tts (fst r))).

(** ** Tables of the expected shape

    The catalog files are meant to hold, for every provider, an object
    with a list of strings under "voices" and under "languages". The
    records below are that shape; [represents] relates them to the JSON
    values the code works on, whatever the order of the keys of an entry
    and whatever other keys it has. *)

Record ProviderEntry : Type := {
  voices : list string;
  languages : list string
}.

Definition ProviderTable : Type := list (string * ProviderEntry).

Definition strings (l : list string) : json := JArr (map JStr l).

Definition entry_rep (j : json) (e : ProviderEntry) : Prop :=
  exists ms,
    j = JObj ms
    /\ dict_get "voices" ms = Some (strings (voices e))
    /\ dict_get "languages" ms = Some (strings (languages e)).

Definition table_rep (ms : list (string * json)) (t : ProviderTable) : Prop :=
  Forall2 (fun m p => fst m = fst p /\ entry_rep (snd m) (snd p)) ms t.

Definition represents (j : json) (t : ProviderTable) : Prop :=
  exists ms, j = JObj ms /\ dict_wf t /\ table_rep ms t.

(** The merge of two string lists, as the loop of lines 75-77 performs it
    on lists of strings. *)
Definition merge_lists (base extra : list string) : list string :=
  fold_left (fun acc v => if bool_decide (v ∈ acc) then acc else acc ++ [v])
            extra base.

(** What the merge appends to [seen]: the strings of [extra] not seen yet,
    each at its first occurrence. *)
Fixpoint additions (seen extra : list string) : list string :=
  match extra with
  | [] => []
  | v :: rest =>
      if bool_decide (v ∈ seen) then additions seen rest
      else v :: additions (seen ++ [v]) rest
  end.

Definition merge_entry (e p : ProviderEntry) : ProviderEntry :=
  {| voices := merge_lists (voices e) (voices p);
     languages := merge_lists (languages e) (languages p) |}.

Definition merge_entry_into (t : ProviderTable) (kp : string * ProviderEntry)
    : ProviderTable :=
  match dict_get (fst kp) t with
  | None => dict_set (fst kp) (snd kp) t
  | Some e => dict_set (fst kp) (merge_entry e (snd kp)) t
  end.

(** The merge of lines 69-84 on tables of the expected shape. *)
Definition merge_tables (builtin override : ProviderTable) : ProviderTable :=
  fold_left merge_entry_into override builtin.

(** The (provider, voice, language) triples of a table, in the order of
    the three loops. *)
Definition triples_of (kp : string * ProviderEntry) : list (string * string * string) :=
  flat_map (fun v => map (fun l => (fst kp, v, l)) (languages (snd kp)))
           (voices (snd kp)).

Definition triples (t : ProviderTable) : list (string * string * string) :=
  flat_map triples_of t.

Definition voice_of_triple {U : UnicodeCase} (x : string * string * string) : TtsVoice :=
  tts_voice (fst (fst x)) (snd (fst x)) (snd x).

(** Ascending order of names: [a <= b] as Python compares two strings. *)
Definition name_le (a b : TtsVoice) : Prop :=
  String.leb (tv_name a) (tv_name b) = true.

Fixpoint contains_char (c : ascii) (s : string) : bool :=
  match s with
  | EmptyString => false
  | String c' r => Ascii.eqb c' c || contains_char c r
  end.

(** "Only its first character uppercased and every other character left
    as it was": the capitalization as the specification words it, to be
    compared with [ascii_capitalize]. *)
Definition upper_first (s : string) : string :=
  match s with
  | EmptyString => EmptyString
  | String c r => String (upper_char c) r
  end.

Fixpoint has_upper (s : string) : bool :=
  match s with
  | EmptyString => false
  | String c r => is_upper c || has_upper r
  end.

Definition tail (s : string) : string :=
  match s with
  | EmptyString => EmptyString
  | String _ r => r
  end.

(** The JSON text a table of the expected shape is usually written as. *)
Definition entry_json (e : ProviderEntry) : json :=
  JObj [("voices", strings (voices e)); ("languages", strings (languages e))].

Definition table_json (t : ProviderTable) : json :=
  JObj (map (fun kp => (fst kp, entry_json (snd kp))) t).

(** The strings of a list, each once, in the order of their first
    occurrences. *)
Fixpoint first_occurrences (l : list string) : list string :=
  match l with
  | [] => []
  | v :: rest => v :: filter (fun x => x <> v) (first_occurrences rest)
  end.

(** "The first len(builtin) elements are the builtin list and the rest are
    the override entries not already in it, in override order": [ml] is
    the merge of the builtin list [bl] and the override list [ol]. The
    rest is the list of the override strings, each taken once where it
    first occurs, without those of the builtin list; it is the filtered
    override list itself when that list repeats nothing. *)
Definition builtin_then_new (bl ol ml : list string) : Prop :=
  take (length bl) ml = bl
  /\ drop (length bl) ml = filter (fun v => v ∉ bl) (first_occurrences ol)
  /\ NoDup (drop (length bl) ml)
  /\ (forall v, v ∈ drop (length bl) ml <-> v ∈ ol /\ v ∉ bl)
  /\ sublist (drop (length bl) ml) ol
  /\ (NoDup ol -> drop (length bl) ml = filter (fun v => v ∉ bl) ol).

(** ** Example tables *)

Definition google_aria : ProviderTable :=
  [("google", {| voices := ["Aria"]; languages := ["en_US"] |})].

Definition google_aria_twice : ProviderTable :=
  [("google", {| voices := ["Aria"; "Aria"]; languages := ["en_US"] |})].

Definition google_nova : ProviderTable :=
  [("google", {| voices := ["Nova"]; languages := ["en_US"] |})].

Definition wider_override : ProviderTable :=
  [("google", {| voices := ["Aria"; "Nova"; "Nova"]; languages := ["en_US"; "de_DE"] |});
   ("custom1", {| voices := ["Bob"]; languages := ["fr_FR"] |})].

Definition google_openai : ProviderTable :=
  [("google", {| voices := ["Aria"]; languages := ["en_US"] |});
   ("openai", {| voices := ["Aria"]; languages := ["en_US"] |})].

(** A custom table whose "google" entry has a number for its languages. *)
Definition google_nova_bad_languages : json :=
  JObj [("google", JObj [("voices", strings ["Nova"]); ("languages", JNum 5)])].

(** A custom table whose "google" entry has a number among its voices and
    a number for its languages. *)
Definition google_number_voice : json :=
  JObj [("google", JObj [("voices", JArr [JNum 5]); ("languages", JNum 7)])].

(** A builtin table whose only provider has no voice and no "languages". *)
Definition no_voice_no_languages : json :=
  JObj [("silent", JObj [("voices", JArr [])])].

(** A builtin table whose only provider has an empty entry. *)
Definition empty_entry : json := JObj [("silent", JObj [])].

(** ** Environments *)

(** The same builtin file with CUSTOM_VOICES_PATH unset. *)
Definition without_custom (env : environment) : environment :=
  {| voices_file := voices_file env;
     CUSTOM_VOICES_PATH := "";
     custom_file_exists := Ok false;
     custom_file := Raise FileNotFoundError |}.

Definition env_builtin_only (builtin : result json) : environment :=
  {| voices_file := builtin;
     CUSTOM_VOICES_PATH := "";
     custom_file_exists := Ok false;
     custom_file := Raise FileNotFoundError |}.

Definition env_with_custom (builtin : result json) (custom : result json) : environment :=
  {| voices_file := builtin;
     CUSTOM_VOICES_PATH := "/share/custom_voices.json";
     custom_file_exists := Ok true;
     custom_file := custom |}.

(** The existence test on CUSTOM_VOICES_PATH raises. *)
Definition env_custom_unreachable (builtin : result json) : environment :=
  {| voices_file := builtin;
     CUSTOM_VOICES_PATH := "/share/custom_voices.json";
     custom_file_exists := Raise OSError;
     custom_file := Raise OSError |}.

(** What lines 60-66 and 85-88 log when they load no custom table: nothing
    for an empty CUSTOM_VOICES_PATH, the warning for a file that is not
    there, the exception that the existence test, [open] or [json.load]
    raised. [None] when a custom table is loaded. *)
Definition not_loaded_log (env : environment) : option (list log_record) :=
  if String.eqb (CUSTOM_VOICES_PATH env) "" then Some []
  else
    match custom_file_exists env with
    | Raise e => Some [CustomFailed e]
    | Ok false => Some [CustomFileMissing]
    | Ok true =>
        match custom_file env with
        | Raise e => Some [CustomFailed e]
        | Ok _ => None
        end
    end.

(** The custom table that [main] merges has an entry for [provider]. *)
Definition custom_provides (env : environment) (provider : string) : bool :=
  negb (String.eqb (CUSTOM_VOICES_PATH env) "")
  && match custom_file_exists env, custom_file env with
     | Ok true, Ok (JObj items) => dict_mem provider items
     | _, _ => false
     end.

(** An entry that stops the loops of lines 91-93: it has no "voices", or
    it has at least one voice and no "languages". *)
Definition lacks_needed_key (entry : json) : Prop :=
  exists ms,
    entry = JObj ms
    /\ (dict_get "voices" ms = None
        \/ (dict_get "languages" ms = None
            /\ exists vs v rest,
                 dict_get "voices" ms = Some vs /\ py_iter vs = Ok (v :: rest))).

(** An entry whose "voices" and "languages", where present, are lists of
    strings. *)
Definition optional_strings (o : option json) : Prop :=
  match o with
  | None => True
  | Some j => exists l, j = strings l
  end.

Definition loose_entry (j : json) : Prop :=
  exists ms,
    j = JObj ms
    /\ optional_strings (dict_get "voices" ms)
    /\ optional_strings (dict_get "languages" ms).

(** ** Invariants of the override block *)

Definition preserves {A} (I : json -> Prop) (m : M A) : Prop :=
  forall vd vd' r, I vd -> m vd = (vd', r) -> I vd'.

(** [voices_data] is a dict that maps [k] to [j]. *)
Definition maps_to (k : string) (j : json) (vd : json) : Prop :=
  exists t, vd = JObj t /\ dict_get k t = Some j.

(** [voices_data] is a dict whose entry for [k] is a dict with the key [kk]. *)
Definition entry_has_key (k kk : string) (vd : json) : Prop :=
  exists t ms, vd = JObj t /\ dict_get k t = Some (JObj ms) /\ dict_mem kk ms = true.

(** [voices_data] is a dict with the key [k]. *)
Definition has_provider (k : string) (vd : json) : Prop :=
  exists t, vd = JObj t /\ dict_mem k t = true.

(** ** Further notions about the merge *)

(** The entry of a provider after the merge, from its builtin entry and
    its override entry. *)
Definition merged_entry (eb eo : option ProviderEntry) : option ProviderEntry :=
  match eb, eo with
  | Some e, Some p => Some (merge_entry e p)
  | Some e, None => Some e
  | None, Some p => Some p
  | None, None => None
  end.

(** Every provider of [o] is a provider of [b] that already lists the
    voices and languages [o] gives it. *)
Definition covered (b o : ProviderTable) : Prop :=
  Forall (fun kp =>
            exists e,
              dict_get (fst kp) b = Some e
              /\ voices (snd kp) ⊆ voices e
              /\ languages (snd kp) ⊆ languages e) o.

(** [voices_data] is a dict whose keys start with [ks], in that order. *)
Definition keys_start_with (ks : list string) (vd : json) : Prop :=
  exists t, vd = JObj t /\ ks `prefix_of` dict_keys t.

(** [voices_data] is a dict without the key [k]. *)
Definition lacks_provider (k : string) (vd : json) : Prop :=
  exists t, vd = JObj t /\ dict_get k t = None.

(** [voices_data] is a dict whose entry for [k] is a dict. *)
Definition entry_is_dict (k : string) (vd : json) : Prop :=
  exists t ms, vd = JObj t /\ dict_get k t = Some (JObj ms).

(** A statement that keeps [I] and raises nothing but exceptions in [P]. *)
Definition raises_only {A} (I : json -> Prop) (P : exn -> Prop) (m : M A) : Prop :=
  forall vd vd' r,
    I vd -> m vd = (vd', r) -> I vd' /\ forall e, r = Raise e -> P e.

Definition attribute_or_type_error (e : exn) : Prop :=
  e = AttributeError \/ e = TypeError.

(** An entry the loops of lines 91-93 cannot go through: it is no dict, or
    it lacks a key they look up. *)
Definition unusable_entry (entry : json) : Prop :=
  match entry with
  | JObj _ => lacks_needed_key entry
  | _ => True
  end.

(** The middle part of a voice name: "Chirp3-HD" for "google", the key
    itself otherwise (which for "openai" is what line 103 writes out). *)
Definition name_segment (key : string) : string :=
  if String.eqb key "google" then "Chirp3-HD" else key.

(** The table offers the voice [v] in the language [l] under the provider
    [key]: the lookups of lines 92-93 succeed and yield these strings. *)
Definition offers (voices_data : json) (key v l : string) : Prop :=
  exists entry jvs vitems jls litems,
    py_getitem voices_data key = Ok entry
    /\ py_getitem entry "voices" = Ok jvs
    /\ py_iter jvs = Ok vitems
    /\ JStr v ∈ vitems
    /\ py_getitem entry "languages" = Ok jls
    /\ py_iter jls = Ok litems
    /\ JStr l ∈ litems.

(** A custom table with a provider whose entry is a number. *)
Definition custom_with_number : json := JObj [("custom1", JNum 5)].

(** * Facts *)

(** ** Dictionaries *)

Section DictFacts.
Context {A : Type}.
Implicit Types (d : list (string * A)) (k : string) (v : A).

Lemma dict_get_set_eq k v d : dict_get k (dict_set k v d) = Some v.
Proof.
  induction d as [|[k' v'] d IH]; simpl.
  - by rewrite String.eqb_refl.
  - destruct (String.eqb k k') eqn:E; simpl; rewrite E; [done | exact IH].
Qed.

Lemma dict_get_set_ne k k' v d :
  k <> k' -> dict_get k' (dict_set k v d) = dict_get k' d.
Proof.
  intros Hne.
  assert (String.eqb k' k = false) as Hf by (apply String.eqb_neq; congruence).
  induction d as [|[k0 v0] d IH]; simpl.
  - by rewrite Hf.
  - destruct (String.eqb k k0) eqn:E; simpl.
    + apply String.eqb_eq in E as <-. by rewrite Hf.
    + by rewrite IH.
Qed.

Lemma dict_set_id k v d : dict_get k d = Some v -> dict_set k v d = d.
Proof.
  induction d as [|[k' v'] d IH]; simpl; [done|].
  destruct (String.eqb k k') eqn:E.
  - by intros [= ->].
  - intros H. by rewrite IH.
Qed.

Lemma dict_set_set k v w d : dict_set k w (dict_set k v d) = dict_set k w d.
Proof.
  induction d as [|[k' v'] d IH]; simpl.
  - by rewrite String.eqb_refl.
  - destruct (String.eqb k k') eqn:E; simpl; rewrite E; [done | by rewrite IH].
Qed.

Lemma dict_set_new k v d : dict_get k d = None -> dict_set k v d = d ++ [(k, v)].
Proof.
  induction d as [|[k' v'] d IH]; simpl; [done|].
  destruct (String.eqb k k'); [done|]. intros H. by rewrite IH.
Qed.

Lemma dict_get_None k d : dict_get k d = None <-> k ∉ dict_keys d.
Proof.
  induction d as [|[k' v'] d IH]; simpl.
  - split; [intros _; apply not_elem_of_nil | done].
  - rewrite not_elem_of_cons. destruct (String.eqb_spec k k') as [->|Hne].
    + split; [done | intros [? _]; done].
    + rewrite IH. tauto.
Qed.

Lemma dict_get_Some_elem k v d : dict_get k d = Some v -> (k, v) ∈ d.
Proof.
  induction d as [|[k' v'] d IH]; simpl; [done|].
  destruct (String.eqb_spec k k') as [->|Hne].
  - intros [= ->]. apply list_elem_of_here.
  - intros H. apply list_elem_of_further. auto.
Qed.

Lemma dict_get_elem k v d : dict_wf d -> (k, v) ∈ d -> dict_get k d = Some v.
Proof.
  unfold dict_wf. induction d as [|[k' v'] d IH]; simpl.
  - intros _ H. by apply elem_of_nil in H.
  - rewrite NoDup_cons. intros [Hk Hd] Hin.
    apply elem_of_cons in Hin as [[= -> ->]|Hin].
    + by rewrite String.eqb_refl.
    + destruct (String.eqb_spec k k') as [->|Hne]; [|auto].
      exfalso. apply Hk. apply list_elem_of_fmap. by exists (k', v).
Qed.

Lemma dict_keys_set k v d :
  dict_keys (dict_set k v d)
  = if dict_mem k d then dict_keys d else dict_keys d ++ [k].
Proof.
  unfold dict_mem. induction d as [|[k' v'] d IH]; simpl; [done|].
  destruct (String.eqb k k') eqn:E; simpl; [done|].
  rewrite IH. by destruct (dict_get k d).
Qed.

Lemma dict_set_wf k v d : dict_wf d -> dict_wf (dict_set k v d).
Proof.
  unfold dict_wf. rewrite dict_keys_set. unfold dict_mem.
  destruct (dict_get k d) eqn:E; [done|].
  intros Hd. apply NoDup_app. split_and!; [done | | apply NoDup_singleton].
  intros x Hx Hx'. apply list_elem_of_singleton in Hx' as ->.
  by apply dict_get_None in E.
Qed.
End DictFacts.

(** ** The state of the override block *)

Lemma mbind_ok {A B} (m : M A) (k : A -> M B) vd vd' a :
  m vd = (vd', Ok a) -> mbind m k vd = k a vd'.
Proof. unfold mbind. by intros ->. Qed.

(** [store_field] on a table whose entry for [provider] is a dict. *)
Lemma store_field_dict provider k value t ms :
  dict_get provider t = Some (JObj ms) ->
  store_field provider k value (JObj t)
  = (JObj (dict_set provider (JObj (dict_set k value ms)) t), Ok tt).
Proof.
  intros H. unfold store_field, mbind, get, lift, put; simpl. by rewrite H.
Qed.

(** ** Merging lists of strings *)

Lemma py_in_strings v l : py_in (JStr v) (strings l) = Ok (bool_decide (v ∈ l)).
Proof.
  unfold strings; simpl. f_equal.
  induction l as [|x l IH]; simpl; [done|].
  rewrite IH. destruct (String.eqb_spec v x) as [->|Hne]; simpl.
  - symmetry. apply bool_decide_eq_true. apply list_elem_of_here.
  - apply bool_decide_ext. rewrite elem_of_cons. tauto.
Qed.

Lemma py_append_strings l v : py_append (strings l) (JStr v) = Ok (strings (l ++ [v])).
Proof. unfold strings; simpl. by rewrite map_app. Qed.

Lemma merge_lists_cons base v extra :
  merge_lists base (v :: extra)
  = merge_lists (if bool_decide (v ∈ base) then base else base ++ [v]) extra.
Proof. done. Qed.

(** The loop on an aliased list of strings: every [append] lands in the
    table, which ends with the merged list under [k]. *)
Lemma merge_loop_strings provider k extra : forall base t ms,
  dict_get provider t = Some (JObj ms) ->
  dict_get k ms = Some (strings base) ->
  merge_loop true provider k (map JStr extra) (strings base) (JObj t)
  = (JObj (dict_set provider
             (JObj (dict_set k (strings (merge_lists base extra)) ms)) t),
     Ok (strings (merge_lists base extra))).
Proof.
  induction extra as [|v extra IH]; intros base t ms Ht Hms.
  - simpl. unfold ret, merge_lists; simpl.
    by rewrite (dict_set_id k _ ms Hms), (dict_set_id provider _ t Ht).
  - rewrite merge_lists_cons. cbn [map merge_loop].
    rewrite (mbind_ok _ _ _ (JObj t) (bool_decide (v ∈ base)))
      by (unfold lift; by rewrite py_in_strings).
    destruct (bool_decide (v ∈ base)); [by apply IH|].
    rewrite (mbind_ok _ _ _ (JObj t) (strings (base ++ [v])))
      by (unfold lift; by rewrite py_append_strings).
    rewrite (mbind_ok _ _ _ _ tt (store_field_dict _ _ _ _ _ Ht)).
    rewrite (IH (base ++ [v]) _ (dict_set k (strings (base ++ [v])) ms)).
    + by rewrite !dict_set_set.
    + apply dict_get_set_eq.
    + apply dict_get_set_eq.
Qed.

Lemma merge_lists_additions extra : forall base,
  merge_lists base extra = base ++ additions base extra.
Proof.
  induction extra as [|v extra IH]; intros base.
  - by rewrite app_nil_r.
  - rewrite merge_lists_cons. simpl. destruct (bool_decide (v ∈ base)).
    + apply IH.
    + rewrite IH. by rewrite <- app_assoc.
Qed.

Lemma additions_elem extra : forall seen v,
  v ∈ additions seen extra <-> v ∈ extra /\ v ∉ seen.
Proof.
  induction extra as [|x extra IH]; intros seen v; simpl.
  - split; [intros H; by apply elem_of_nil in H | intros [H _]; by apply elem_of_nil in H].
  - case_bool_decide as Hx.
    + rewrite IH, elem_of_cons. split; [tauto|].
      intros [[->|?] ?]; [done | tauto].
    + rewrite !elem_of_cons, IH, not_elem_of_app, list_elem_of_singleton.
      destruct (decide (v = x)) as [->|Hne]; tauto.
Qed.

Lemma additions_NoDup extra : forall seen, NoDup (additions seen extra).
Proof.
  induction extra as [|x extra IH]; intros seen; simpl; [constructor|].
  case_bool_decide; [apply IH|]. constructor; [|apply IH].
  rewrite additions_elem, not_elem_of_app, list_elem_of_singleton. tauto.
Qed.

Lemma additions_sublist extra : forall seen, sublist (additions seen extra) extra.
Proof.
  induction extra as [|x extra IH]; intros seen; simpl; [constructor|].
  case_bool_decide; [apply sublist_cons | apply sublist_skip]; apply IH.
Qed.

Lemma additions_ext extra : forall seen seen',
  (forall v, v ∈ extra -> (v ∈ seen <-> v ∈ seen')) ->
  additions seen extra = additions seen' extra.
Proof.
  induction extra as [|x extra IH]; intros seen seen' H; simpl; [done|].
  assert (x ∈ seen <-> x ∈ seen') as Hx by (apply H, list_elem_of_here).
  rewrite (bool_decide_ext _ _ Hx). case_bool_decide.
  - apply IH. intros v Hv. apply H. by apply list_elem_of_further.
  - f_equal. apply IH. intros v Hv. rewrite !elem_of_app.
    specialize (H v (list_elem_of_further _ _ _ Hv)). tauto.
Qed.

Lemma additions_filter extra : forall seen,
  NoDup extra -> additions seen extra = filter (fun v => v ∉ seen) extra.
Proof.
  induction extra as [|x extra IH]; intros seen Hnd; simpl; [done|].
  apply NoDup_cons in Hnd as [Hx Hnd].
  case_bool_decide as Hs.
  - rewrite filter_cons_False by tauto. by apply IH.
  - rewrite filter_cons_True by done. f_equal.
    rewrite <- (IH seen Hnd). apply additions_ext.
    intros v Hv. rewrite elem_of_app, list_elem_of_singleton.
    split; [|tauto]. intros [?| ->]; done.
Qed.

Lemma merge_lists_NoDup base extra : NoDup base -> NoDup (merge_lists base extra).
Proof.
  intros Hb. rewrite merge_lists_additions. apply NoDup_app. split_and!.
  - done.
  - intros v Hv Hv'. apply additions_elem in Hv'. tauto.
  - apply additions_NoDup.
Qed.

Lemma merge_lists_take base extra :
  take (length base) (merge_lists base extra) = base.
Proof. rewrite merge_lists_additions. by rewrite take_app_length. Qed.

Lemma merge_lists_drop base extra :
  drop (length base) (merge_lists base extra) = additions base extra.
Proof. rewrite merge_lists_additions. by rewrite drop_app_length. Qed.

(** ** The merge on tables of the expected shape *)

Lemma table_rep_get ms t k :
  table_rep ms t ->
  match dict_get k ms, dict_get k t with
  | Some j, Some e => entry_rep j e
  | None, None => True
  | _, _ => False
  end.
Proof.
  induction 1 as [|[k1 j] [k2 e] ms t [Hk He] _ IH]; simpl in *; [done|].
  subst k2. by destruct (String.eqb k k1).
Qed.

Lemma table_rep_set ms t k j e :
  table_rep ms t -> entry_rep j e ->
  table_rep (dict_set k j ms) (dict_set k e t).
Proof.
  intros Hrep Hje.
  induction Hrep as [|[k1 j1] [k2 e1] ms t [Hk He] Hrep IH]; simpl in *.
  - by repeat constructor.
  - subst k2. destruct (String.eqb k k1); by constructor.
Qed.

Lemma table_rep_keys ms t : table_rep ms t -> dict_keys ms = dict_keys t.
Proof.
  induction 1 as [|[k1 j] [k2 e] ms t [Hk He] _ IH]; simpl in *; [done|].
  by rewrite Hk, IH.
Qed.

(** Lines 74-78 (80-84) when both sides hold a list of strings under [k]. *)
Lemma merge_field_strings k provider t ms ps base extra :
  dict_get provider t = Some (JObj ms) ->
  dict_get k ms = Some (strings base) ->
  dict_get k ps = Some (strings extra) ->
  merge_field k provider (JObj ps) (JObj t)
  = (JObj (dict_set provider
             (JObj (dict_set k (strings (merge_lists base extra)) ms)) t),
     Ok tt).
Proof.
  intros Ht Hms Hps.
  unfold merge_field, mbind at 1 2 3 4 5, get, lift; simpl.
  rewrite Ht; simpl. rewrite Hms, Hps; simpl. unfold dict_mem; rewrite Hms.
  rewrite (mbind_ok _ _ _ _ _ (merge_loop_strings _ _ _ _ _ _ Ht Hms)).
  rewrite (store_field_dict _ _ _ _ (dict_set k (strings (merge_lists base extra)) ms))
    by apply dict_get_set_eq.
  by rewrite !dict_set_set.
Qed.

Lemma merge_provider_rep ms t k jp p :
  table_rep ms t -> entry_rep jp p ->
  exists ms',
    merge_provider k jp (JObj ms) = (JObj ms', Ok tt)
    /\ table_rep ms' (merge_entry_into t (k, p)).
Proof.
  intros Hrep Hp. pose proof (table_rep_get ms t k Hrep) as Hk.
  unfold merge_provider, merge_entry_into, mbind at 1 2, get, lift; simpl.
  unfold dict_mem.
  destruct (dict_get k ms) as [je|] eqn:Hms, (dict_get k t) as [e|] eqn:Ht;
    try done.
  - destruct Hk as (es & -> & Hv & Hl). destruct Hp as (ps & -> & Hpv & Hpl).
    eexists. split.
    + erewrite mbind_ok by (by apply merge_field_strings).
      apply merge_field_strings; [apply dict_get_set_eq | | done].
      by rewrite dict_get_set_ne.
    + rewrite dict_set_set. apply table_rep_set; [done|].
      eexists. split; [done|]. simpl. split.
      * rewrite dict_get_set_ne by done. apply dict_get_set_eq.
      * apply dict_get_set_eq.
  - eexists. split; [done|]. by apply table_rep_set.
Qed.

Lemma merge_items_rep os o : forall ms t,
  table_rep os o -> table_rep ms t ->
  exists ms',
    merge_items os (JObj ms) = (JObj ms', Ok tt)
    /\ table_rep ms' (merge_tables t o).
Proof.
  intros ms t Ho. revert ms t.
  induction Ho as [|[k jp] [k' p] os o [Hk Hp] _ IH]; intros ms t Ht; simpl in *.
  - by exists ms.
  - subst k'.
    destruct (merge_provider_rep ms t k jp p Ht Hp) as (ms1 & Hm & Hrep1).
    destruct (IH _ _ Hrep1) as (ms2 & Hm2 & Hrep2).
    exists ms2. split; [|done].
    by erewrite mbind_ok by exact Hm.
Qed.

Lemma merge_entry_into_wf t kp : dict_wf t -> dict_wf (merge_entry_into t kp).
Proof.
  intros Hwf. unfold merge_entry_into.
  destruct (dict_get (fst kp) t); by apply dict_set_wf.
Qed.

Lemma merge_tables_wf o : forall b, dict_wf b -> dict_wf (merge_tables b o).
Proof.
  induction o as [|kp o IH]; intros b Hb; [done|].
  apply IH. by apply merge_entry_into_wf.
Qed.

(** On tables of the expected shape the merge never raises and computes
    [merge_tables]. *)
Lemma merge_custom_rep jb b jo o :
  represents jb b -> represents jo o ->
  exists jm,
    merge_custom jo jb = (jm, Ok tt) /\ represents jm (merge_tables b o).
Proof.
  intros (ms & -> & Hwb & Hb) (os & -> & Hwo & Ho).
  destruct (merge_items_rep os o ms b Ho Hb) as (ms' & Hm & Hrep).
  exists (JObj ms'). split; [exact Hm|].
  exists ms'. split_and!; [done | by apply merge_tables_wf | done].
Qed.

(** The entries of the merged table, by provider. *)
Lemma merge_tables_get k o : forall b,
  dict_wf o ->
  dict_get k (merge_tables b o)
  = match dict_get k o with
    | None => dict_get k b
    | Some p =>
        Some (match dict_get k b with
              | Some e => merge_entry e p
              | None => p
              end)
    end.
Proof.
  induction o as [|[k0 p0] o IH]; intros b Hwf; [done|].
  apply NoDup_cons in Hwf as [Hk0 Hwf].
  change (merge_tables b ((k0, p0) :: o))
    with (merge_tables (merge_entry_into b (k0, p0)) o).
  rewrite IH by done. simpl.
  destruct (String.eqb_spec k k0) as [->|Hne].
  - simpl in Hk0. apply (proj2 (dict_get_None k0 o)) in Hk0. rewrite Hk0.
    unfold merge_entry_into; simpl.
    destruct (dict_get k0 b); by rewrite dict_get_set_eq.
  - assert (dict_get k (merge_entry_into b (k0, p0)) = dict_get k b) as ->; [|done].
    unfold merge_entry_into; simpl.
    destruct (dict_get k0 b); by rewrite dict_get_set_ne.
Qed.

Lemma represents_table_json t : dict_wf t -> represents (table_json t) t.
Proof.
  intros Hwf. eexists. split_and!; [done | done |].
  clear Hwf. induction t as [|[k e] t IH]; constructor; [|exact IH].
  split; [done|]. by eexists.
Qed.

(** ** The merged lists *)

Lemma additions_first_occurrences extra : forall seen,
  additions seen extra = filter (fun v => v ∉ seen) (first_occurrences extra).
Proof.
  induction extra as [|x extra IH]; intros seen; simpl; [done|].
  case_bool_decide as Hx.
  - rewrite filter_cons_False by tauto. rewrite IH, list_filter_filter.
    apply list_filter_iff. intros v. split; [|tauto].
    intros Hv. split; [done|]. by intros ->.
  - rewrite filter_cons_True by done. f_equal.
    rewrite IH, list_filter_filter. apply list_filter_iff. intros v.
    rewrite not_elem_of_app, list_elem_of_singleton. tauto.
Qed.

Lemma merge_lists_builtin_then_new bl ol : builtin_then_new bl ol (merge_lists bl ol).
Proof.
  unfold builtin_then_new. rewrite merge_lists_take, merge_lists_drop.
  split_and!.
  - done.
  - apply additions_first_occurrences.
  - apply additions_NoDup.
  - apply additions_elem.
  - apply additions_sublist.
  - apply additions_filter.
Qed.

(** C2: for a provider present in both tables, the merged voices list
    starts with the builtin voices, exactly and in order, and goes on with
    exactly the override voices that the builtin list does not have, each
    once, in the order in which the override list first names them; the
    same holds for the languages. *)
Theorem merge_preserves_builtin_order jb jo b o :
  represents jb b -> represents jo o ->
  exists jm m,
    merge_custom jo jb = (jm, Ok tt)
    /\ represents jm m
    /\ forall k e p,
         dict_get k b = Some e -> dict_get k o = Some p ->
         exists r,
           dict_get k m = Some r
           /\ builtin_then_new (voices e) (voices p) (voices r)
           /\ builtin_then_new (languages e) (languages p) (languages r).
Proof.
  intros Hb Ho.
  destruct (merge_custom_rep jb b jo o Hb Ho) as (jm & Hm & Hrep).
  exists jm, (merge_tables b o). split_and!; [done | done |].
  intros k e p He Hp. destruct Ho as (os & _ & Hwo & _).
  exists (merge_entry e p). rewrite merge_tables_get, Hp, He by done.
  split_and!; [done | |]; apply merge_lists_builtin_then_new.
Qed.

Lemma merge_preserves_builtin_order_witness :
  exists jm m,
    merge_custom (table_json wider_override) (table_json google_aria) = (jm, Ok tt)
    /\ represents jm m
    /\ forall k e p,
         dict_get k google_aria = Some e -> dict_get k wider_override = Some p ->
         exists r,
           dict_get k m = Some r
           /\ builtin_then_new (voices e) (voices p) (voices r)
           /\ builtin_then_new (languages e) (languages p) (languages r).
Proof.
  apply (merge_preserves_builtin_order
           (table_json google_aria) (table_json wider_override)
           google_aria wider_override);
    apply represents_table_json; unfold dict_wf; simpl.
  - apply NoDup_singleton.
  - apply (bool_decide_unpack _). vm_compute. reflexivity.
Defined.

(** C1, as the code has it: provided no builtin list repeats a string, and
    no list of a provider that only the override table has repeats one,
    every voices list and every languages list of the merged table is free
    of repetitions. The override lists of a provider that both tables
    have may repeat strings. *)
Theorem merge_duplicate_free jb jo b o :
  represents jb b -> represents jo o ->
  (forall k e, dict_get k b = Some e -> NoDup (voices e) /\ NoDup (languages e)) ->
  (forall k p, dict_get k b = None -> dict_get k o = Some p ->
               NoDup (voices p) /\ NoDup (languages p)) ->
  exists jm m,
    merge_custom jo jb = (jm, Ok tt)
    /\ represents jm m
    /\ forall k r, dict_get k m = Some r -> NoDup (voices r) /\ NoDup (languages r).
Proof.
  intros Hb Ho Hbn Hon.
  destruct (merge_custom_rep jb b jo o Hb Ho) as (jm & Hm & Hrep).
  exists jm, (merge_tables b o). split_and!; [done | done |].
  intros k r. destruct Ho as (os & _ & Hwo & _).
  rewrite merge_tables_get by done.
  destruct (dict_get k o) as [p|] eqn:Hp.
  - destruct (dict_get k b) as [e|] eqn:He; intros [= <-].
    + destruct (Hbn k e He). split; by apply merge_lists_NoDup.
    + by apply (Hon k).
  - apply Hbn.
Qed.

Lemma merge_duplicate_free_witness :
  exists jm m,
    merge_custom (table_json wider_override) (table_json google_aria) = (jm, Ok tt)
    /\ represents jm m
    /\ forall k r, dict_get k m = Some r -> NoDup (voices r) /\ NoDup (languages r).
Proof.
  apply (merge_duplicate_free
           (table_json google_aria) (table_json wider_override)
           google_aria wider_override).
  - apply represents_table_json. apply NoDup_singleton.
  - apply represents_table_json. apply (bool_decide_unpack _). vm_compute. reflexivity.
  - intros k e. simpl. destruct (String.eqb k "google"); [|done].
    intros [= <-]; simpl. split; apply NoDup_singleton.
  - intros k p. simpl. destruct (String.eqb k "google"); [done|].
    intros _. destruct (String.eqb k "custom1"); [|done].
    intros [= <-]; simpl. split; apply NoDup_singleton.
Defined.

(** C1 fails as stated: the builtin voices ["Aria", "Aria"] merged with the
    override voices ["Nova"] of the same provider give
    ["Aria", "Aria", "Nova"], where "Aria" is repeated. *)
Lemma merge_keeps_builtin_duplicates :
  represents (table_json google_aria_twice) google_aria_twice
  /\ represents (table_json google_nova) google_nova
  /\ merge_custom (table_json google_nova) (table_json google_aria_twice)
     = (table_json [("google", {| voices := ["Aria"; "Aria"; "Nova"];
                                  languages := ["en_US"] |})],
        Ok tt)
  /\ ~ NoDup ["Aria"; "Aria"; "Nova"].
Proof.
  split_and!.
  - apply represents_table_json, NoDup_singleton.
  - apply represents_table_json, NoDup_singleton.
  - vm_compute. reflexivity.
  - intros H. apply NoDup_cons in H as [H _]. apply H, list_elem_of_here.
Qed.

(** ** Building the voices *)


Lemma for_each_raises {A B} (body : A -> result (list B)) xs x :
  x ∈ xs -> raises (body x) -> raises (for_each body xs).
Proof.
  induction xs as [|y xs IH]; intros Hin Hx; [by apply elem_of_nil in Hin|].
  simpl. apply elem_of_cons in Hin as [->|Hin].
  - by destruct (body y).
  - destruct (body y); simpl; [|done].
    specialize (IH Hin Hx). by destruct (for_each body xs).
Qed.

Lemma describe_strings {U : UnicodeCase} key v l :
  describe key (JStr v) (JStr l) = Ok (tts_voice key v l).
Proof. done. Qed.

Lemma flat_map_singleton_map {A B} (f : A -> B) xs :
  flat_map (fun x => [f x]) xs = map f xs.
Proof. induction xs as [|x xs IH]; simpl; [done | by rewrite IH]. Qed.

Lemma map_flat_map {A B C} (f : B -> C) (g : A -> list B) xs :
  map f (flat_map g xs) = flat_map (fun x => map f (g x)) xs.
Proof.
  induction xs as [|x xs IH]; simpl; [done|]. by rewrite map_app, IH.
Qed.


Lemma flat_map_length_const {A B} (g : A -> list B) n xs :
  (forall x, length (g x) = n) -> length (flat_map g xs) = length xs * n.
Proof.
  intros H. induction xs as [|x xs IH]; simpl; [done|].
  by rewrite length_app, H, IH.
Qed.

Lemma triples_of_length kp :
  length (triples_of kp) = length (voices (snd kp)) * length (languages (snd kp)).
Proof.
  unfold triples_of. apply flat_map_length_const. intros v. apply length_map.
Qed.

Lemma for_each_strings {B} (body : json -> result (list B)) (g : string -> list B) vs :
  (forall v, v ∈ vs -> body (JStr v) = Ok (g v)) ->
  for_each body (map JStr vs) = Ok (flat_map g vs).
Proof.
  induction vs as [|v vs IH]; intros H; simpl; [done|].
  rewrite (H v) by apply list_elem_of_here. simpl.
  rewrite IH; [done|]. intros y Hy. apply H. by apply list_elem_of_further.
Qed.

(** Lines 92-124 for one provider of the expected shape. *)
Lemma voices_loop_rep {U : UnicodeCase} ms key je e :
  dict_get key ms = Some je -> entry_rep je e ->
  voices_loop (JObj ms) key = Ok (map voice_of_triple (triples_of (key, e))).
Proof.
  intros Hget (es & -> & Hv & Hl).
  unfold voices_loop; simpl. rewrite Hget; simpl. rewrite Hv; simpl.
  unfold triples_of; simpl. rewrite map_flat_map.
  apply for_each_strings. intros v _.
  unfold languages_loop; simpl. rewrite Hget; simpl. rewrite Hl; simpl.
  rewrite map_map.
  rewrite <- (flat_map_singleton_map (fun l => voice_of_triple (key, v, l))).
  by apply (for_each_strings _ (fun l => [voice_of_triple (key, v, l)])).
Qed.

Lemma voices_loops_rep {U : UnicodeCase} ms0 ms t :
  table_rep ms t ->
  (forall k j, (k, j) ∈ ms -> dict_get k ms0 = Some j) ->
  for_each (voices_loop (JObj ms0)) (dict_keys ms)
  = Ok (flat_map (fun kp => map voice_of_triple (triples_of kp)) t).
Proof.
  induction 1 as [|[k j] [k' e] ms t [Hk He] _ IH]; intros Hget; simpl in *; [done|].
  subst k'.
  rewrite (voices_loop_rep ms0 k j e); [|apply Hget, list_elem_of_here|done].
  simpl. rewrite IH; [done|].
  intros k1 j1 H1. apply Hget. by apply list_elem_of_further.
Qed.

Lemma synthesize_rep {U : UnicodeCase} jt t :
  represents jt t -> synthesize jt = Ok (map voice_of_triple (triples t)).
Proof.
  intros (ms & -> & Hwf & Hrep). unfold synthesize; simpl.
  unfold triples. rewrite map_flat_map.
  apply voices_loops_rep; [done|].
  intros k j. apply dict_get_elem. unfold dict_wf.
  by rewrite (table_rep_keys _ _ Hrep).
Qed.

(** C3: on a table of the expected shape the voices built are, in order,
    one per (provider, voice, language) triple, provider by provider, and
    a provider with m voices and n languages accounts for m times n of
    them. *)
Theorem synthesize_cross_product {U : UnicodeCase} jt t :
  represents jt t ->
  synthesize jt = Ok (map voice_of_triple (triples t))
  /\ synthesize jt = Ok (flat_map (fun kp => map voice_of_triple (triples_of kp)) t)
  /\ forall kp,
       kp ∈ t ->
       length (map voice_of_triple (triples_of kp))
       = length (voices (snd kp)) * length (languages (snd kp)).
Proof.
  intros Hrep. split_and!.
  - by apply synthesize_rep.
  - rewrite (synthesize_rep _ _ Hrep). unfold triples. by rewrite map_flat_map.
  - intros kp _. rewrite length_map. apply triples_of_length.
Qed.

Lemma synthesize_cross_product_witness :
  synthesize (table_json wider_override)
  = Ok (map voice_of_triple (triples wider_override))
  /\ synthesize (table_json wider_override)
     = Ok (flat_map (fun kp => map voice_of_triple (triples_of kp)) wider_override)
  /\ forall kp,
       kp ∈ wider_override ->
       length (map voice_of_triple (triples_of kp))
       = length (voices (snd kp)) * length (languages (snd kp)).
Proof.
  apply (synthesize_cross_product (table_json wider_override) wider_override).
  apply represents_table_json. apply (bool_decide_unpack _). vm_compute. reflexivity.
Defined.

(** C4: for the catalog with "google" and "openai", each with the voice
    "Aria" and the language "en_US", exactly two voices are built, named
    "en-US-Chirp3-HD-Aria" and "en-US-openai-Aria", and the two names
    differ. *)
Theorem google_openai_names {U : UnicodeCase} :
  synthesize (table_json google_openai)
  = Ok [tts_voice "google" "Aria" "en_US"; tts_voice "openai" "Aria" "en_US"]
  /\ tv_name (tts_voice "google" "Aria" "en_US") = "en-US-Chirp3-HD-Aria"
  /\ tv_name (tts_voice "openai" "Aria" "en_US") = "en-US-openai-Aria"
  /\ tv_name (tts_voice "google" "Aria" "en_US")
     <> tv_name (tts_voice "openai" "Aria" "en_US").
Proof. split_and!; [vm_compute; reflexivity | done | done | discriminate]. Qed.

(** ** Names *)

Lemma replace_first_absent old new s :
  contains_char old s = false -> replace_first old new s = s.
Proof.
  induction s as [|c r IH]; simpl; [done|].
  destruct (Ascii.eqb c old); simpl; [done|]. intros H. by rewrite IH.
Qed.

Lemma replace_first_split old new pre post :
  contains_char old pre = false ->
  replace_first old new (pre ++ String old post) = (pre ++ String new post)%string.
Proof.
  induction pre as [|c r IH]; simpl.
  - intros _. by rewrite Ascii.eqb_refl.
  - destruct (Ascii.eqb c old); simpl; [done|]. intros H. by rewrite IH.
Qed.

(** C5: the normalization replaces the first underscore of a language tag
    by a hyphen and keeps whatever follows it, later underscores included;
    a tag without underscore is unchanged; "en_US_extra" becomes
    "en-US_extra"; and every voice name starts with the normalized tag,
    followed by a part that does not depend on the language. *)
Theorem normalize_language_first_underscore {U : UnicodeCase} (language : string) :
  (forall pre post,
     language = (pre ++ String "_" post)%string ->
     contains_char "_" pre = false ->
     normalize_language language = (pre ++ String "-" post)%string)
  /\ (contains_char "_" language = false -> normalize_language language = language)
  /\ normalize_language "en_US_extra" = "en-US_extra"
  /\ forall key voice,
       tv_name (tts_voice key voice language)
       = (normalize_language language ++ tv_name (tts_voice key voice ""))%string.
Proof.
  split_and!.
  - intros pre post -> Hpre. by apply replace_first_split.
  - apply replace_first_absent.
  - done.
  - intros key voice. unfold tts_voice.
    destruct (String.eqb key "google"); [done|].
    by destruct (String.eqb key "openai").
Qed.

Lemma normalize_language_first_underscore_witness :
  (forall pre post,
     "zh_Hans_CN" = (pre ++ String "_" post)%string ->
     contains_char "_" pre = false ->
     normalize_language "zh_Hans_CN" = (pre ++ String "-" post)%string)
  /\ (contains_char "_" "zh_Hans_CN" = false ->
      normalize_language "zh_Hans_CN" = "zh_Hans_CN")
  /\ normalize_language "en_US_extra" = "en-US_extra"
  /\ forall key voice,
       tv_name (tts_voice key voice "zh_Hans_CN")
       = (normalize_language "zh_Hans_CN"
          ++ tv_name (tts_voice key voice ""))%string.
Proof. exact (normalize_language_first_underscore "zh_Hans_CN"). Defined.

Lemma lower_char_fixed c : lower_char c = c <-> is_upper c = false.
Proof.
  destruct c as [[] [] [] [] [] [] [] []]; vm_compute; split; congruence.
Qed.

Lemma lower_fixed s : lower s = s <-> has_upper s = false.
Proof.
  induction s as [|c r IH]; simpl; [done|]. split.
  - intros [= Hc Hr]. apply orb_false_iff.
    split; [by apply lower_char_fixed | by apply IH].
  - intros H. apply orb_false_iff in H as [Hc Hr].
    apply lower_char_fixed in Hc. apply IH in Hr. by rewrite Hc, Hr.
Qed.

(** C6, as the code has it: for a provider key P other than "google" and
    "openai" the voice is named NL-P-V, described as P_V and attributed
    with an empty url to [P.capitalize()]. For a key of ASCII characters
    that is P with its first character in upper case and every other
    character in lower case, which is P with only the first character
    changed exactly when P has no upper-case letter after its first
    character. *)
Theorem generic_provider_voice {U : UnicodeCase} (P V L : string) :
  P <> "google" -> P <> "openai" ->
  describe P (JStr V) (JStr L) = Ok (tts_voice P V L)
  /\ tv_name (tts_voice P V L) = (normalize_language L ++ "-" ++ P ++ "-" ++ V)%string
  /\ tv_description (tts_voice P V L) = (P ++ "_" ++ V)%string
  /\ at_url (tv_attribution (tts_voice P V L)) = ""
  /\ at_name (tv_attribution (tts_voice P V L)) = capitalize P
  /\ (is_ascii P = true ->
      at_name (tv_attribution (tts_voice P V L)) = ascii_capitalize P
      /\ (at_name (tv_attribution (tts_voice P V L)) = upper_first P
          <-> has_upper (tail P) = false)).
Proof.
  intros Hg Ho. apply String.eqb_neq in Hg, Ho.
  split; [apply describe_strings|].
  unfold tts_voice. rewrite Hg, Ho. cbn [tv_name tv_description tv_attribution at_name at_url].
  split_and!; try done.
  intros Hascii. rewrite (capitalize_ascii P Hascii). split; [done|].
  destruct P as [|c r]; simpl; [done|].
  rewrite <- lower_fixed. split; [by intros [= ->] | by intros ->].
Qed.

Lemma generic_provider_voice_witness :
  describe "custom1" (JStr "Bob") (JStr "fr_FR") = Ok (tts_voice "custom1" "Bob" "fr_FR")
  /\ tv_name (tts_voice "custom1" "Bob" "fr_FR")
     = (normalize_language "fr_FR" ++ "-" ++ "custom1" ++ "-" ++ "Bob")%string
  /\ tv_description (tts_voice "custom1" "Bob" "fr_FR") = ("custom1" ++ "_" ++ "Bob")%string
  /\ at_url (tv_attribution (tts_voice "custom1" "Bob" "fr_FR")) = ""
  /\ at_name (tv_attribution (tts_voice "custom1" "Bob" "fr_FR")) = capitalize "custom1"
  /\ (is_ascii "custom1" = true ->
      at_name (tv_attribution (tts_voice "custom1" "Bob" "fr_FR"))
      = ascii_capitalize "custom1"
      /\ (at_name (tv_attribution (tts_voice "custom1" "Bob" "fr_FR"))
          = upper_first "custom1"
          <-> has_upper (tail "custom1") = false)).
Proof.
  apply (generic_provider_voice "custom1" "Bob" "fr_FR"); discriminate.
Defined.

(** C6 fails as stated: for the provider key "myTTS" the attribution name
    is "Mytts", while uppercasing only the first character and leaving the
    others alone would give "MyTTS". *)
Lemma capitalize_lowers_the_rest :
  describe "myTTS" (JStr "Bob") (JStr "en_US") = Ok (tts_voice "myTTS" "Bob" "en_US")
  /\ at_name (tv_attribution (tts_voice "myTTS" "Bob" "en_US")) = "Mytts"
  /\ upper_first "myTTS" = "MyTTS"
  /\ at_name (tv_attribution (tts_voice "myTTS" "Bob" "en_US")) <> upper_first "myTTS".
Proof. split_and!; [done | done | done | discriminate]. Qed.

(** The attribution name of "myTTS" is "Mytts" whatever the interpreter
    does outside ASCII. *)
Lemma capitalize_of_ascii_key {U : UnicodeCase} :
  at_name (tv_attribution (tts_voice "myTTS" "Bob" "en_US")) = "Mytts".
Proof. simpl. by rewrite capitalize_ascii. Qed.

(** ** Sorting by name *)

Lemma leb_le a b : String.leb a b = true <-> a = b \/ String_as_OT.lt a b.
Proof.
  unfold String.leb.
  destruct (String.compare a b) eqn:E.
  - apply String_as_OT.cmp_eq in E. tauto.
  - apply String_as_OT.cmp_lt in E. tauto.
  - split; [done|]. intros [->|H].
    + assert (String.compare b b = Eq) as Hb by (by apply String_as_OT.cmp_eq).
      congruence.
    + apply String_as_OT.cmp_lt in H. unfold String_as_OT.cmp in H. congruence.
Qed.

Lemma name_le_refl a : name_le a a.
Proof. apply leb_le. by left. Qed.

Lemma name_le_trans a b c : name_le a b -> name_le b c -> name_le a c.
Proof.
  unfold name_le. rewrite !leb_le. intros [->|Hab] [<-|Hbc]; auto.
  right. eapply String_as_OT.lt_trans; eauto.
Qed.

Lemma name_le_total a b : name_le a b \/ name_le b a.
Proof. apply String.leb_total. Qed.

Lemma insert_by_name_perm x l : Permutation (x :: l) (insert_by_name x l).
Proof.
  induction l as [|y l IH]; simpl; [done|].
  destruct (String.leb (tv_name x) (tv_name y)); [done|].
  rewrite <- IH. apply perm_swap.
Qed.

Lemma insert_by_name_sorted x l :
  StronglySorted name_le l -> StronglySorted name_le (insert_by_name x l).
Proof.
  induction 1 as [|y l Hl IH Hy]; simpl.
  - repeat constructor.
  - destruct (String.leb (tv_name x) (tv_name y)) eqn:E.
    + constructor; [by constructor|]. constructor; [exact E|].
      eapply Forall_impl; [exact Hy|]. intros z Hz. by eapply name_le_trans.
    + constructor; [exact IH|].
      rewrite <- (insert_by_name_perm x l). constructor; [|exact Hy].
      destruct (name_le_total x y) as [H|H]; [|done].
      unfold name_le in H. congruence.
Qed.

Lemma sorted_perm voices : Permutation voices (sorted voices).
Proof.
  induction voices as [|x l IH]; simpl; [done|].
  rewrite <- insert_by_name_perm. by constructor.
Qed.

Lemma sorted_sorted voices : StronglySorted name_le (sorted voices).
Proof.
  induction voices as [|x l IH]; simpl; [constructor|].
  by apply insert_by_name_sorted.
Qed.

Lemma sorted_fixed l : StronglySorted name_le l -> sorted l = l.
Proof.
  induction 1 as [|x l Hl IH Hx]; simpl; [done|].
  rewrite IH. destruct l as [|y l]; simpl; [done|].
  apply Forall_cons in Hx as [Hxy _]. unfold name_le in Hxy. by rewrite Hxy.
Qed.

(** Voices of one name keep the order they were built in: the sort is
    stable, as Python's is. *)
Lemma sorted_stable n voices :
  filter (fun v => tv_name v = n) (sorted voices)
  = filter (fun v => tv_name v = n) voices.
Proof.
  induction voices as [|x l IH]; simpl; [done|].
  rewrite filter_cons, <- IH.
  generalize (sorted_sorted l). generalize (sorted l). clear IH. intros s Hs.
  induction Hs as [|y s Hs IH Hy]; simpl; [by rewrite filter_cons|].
  destruct (String.leb (tv_name x) (tv_name y)) eqn:E.
  - by rewrite (filter_cons _ x).
  - rewrite !(filter_cons _ y), IH.
    destruct (decide (tv_name y = n)) as [Hyn|]; [|done].
    destruct (decide (tv_name x = n)) as [Hxn|]; [|done].
    rewrite Hxn, <- Hyn in E. pose proof (name_le_refl y) as Hr.
    unfold name_le in Hr. congruence.
Qed.

(** C7: the voices of the advertised program are in ascending order of
    name, are the voices built, each as often as it was built, and sorting
    them again changes nothing. *)
Theorem advertised_voices_sorted (version : string) (voices : list TtsVoice) :
  exists program,
    tts (wyoming_info version voices) = [program]
    /\ StronglySorted name_le (tp_voices program)
    /\ Permutation voices (tp_voices program)
    /\ sorted (tp_voices program) = tp_voices program
    /\ wyoming_info version (tp_voices program) = wyoming_info version voices.
Proof.
  eexists. split; [reflexivity|]. simpl.
  pose proof (sorted_fixed _ (sorted_sorted voices)) as Hfix.
  split_and!.
  - apply sorted_sorted.
  - apply sorted_perm.
  - exact Hfix.
  - unfold wyoming_info. by rewrite Hfix.
Qed.

(** ** Failures of the builtin file *)

(** C9: when voices.json cannot be opened, read or parsed, [main] raises
    that exception to its caller; there is no [Info] and no catalog. *)
Theorem builtin_failure_is_fatal {U : UnicodeCase} (version : string) (env : environment) (e : exn) :
  voices_file env = Raise e ->
  snd (main version env) = Raise e /\ catalog version env = Raise e.
Proof.
  intros H. unfold catalog, main, load_builtin. rewrite H. by destruct e.
Qed.

Lemma builtin_failure_is_fatal_witness :
  snd (main "1.0.0" (env_with_custom (Raise JSONDecodeError) (Ok (table_json google_nova))))
  = Raise JSONDecodeError
  /\ catalog "1.0.0" (env_with_custom (Raise JSONDecodeError) (Ok (table_json google_nova)))
     = Raise JSONDecodeError.
Proof.
  apply (builtin_failure_is_fatal "1.0.0"
           (env_with_custom (Raise JSONDecodeError) (Ok (table_json google_nova)))
           JSONDecodeError).
  reflexivity.
Defined.

(** ** Failures of the custom file *)

Lemma mbind_inv {A B} (m : M A) (k : A -> M B) vd vd' r :
  mbind m k vd = (vd', r) ->
  (exists e, m vd = (vd', Raise e) /\ r = Raise e)
  \/ (exists vd1 a, m vd = (vd1, Ok a) /\ k a vd1 = (vd', r)).
Proof.
  unfold mbind. destruct (m vd) as [vd1 [a|e]].
  - intros H. right. by exists vd1, a.
  - intros [= <- <-]. left. by exists e.
Qed.

Lemma merge_items_raise items : forall vd vd' e,
  merge_items items vd = (vd', Raise e) ->
  exists merged p rest t,
    items = merged ++ p :: rest
    /\ merge_items merged vd = (t, Ok tt)
    /\ merge_provider (fst p) (snd p) t = (vd', Raise e).
Proof.
  induction items as [|[k pdata] items IH]; intros vd vd' e H; [done|].
  simpl in H. apply mbind_inv in H as [(e' & H & [= <-])|(vd1 & [] & H1 & H2)].
  - by exists [], (k, pdata), items, vd.
  - destruct (IH _ _ _ H2) as (merged & p & rest & t & -> & Hm & Hp).
    exists ((k, pdata) :: merged), p, rest, t. split_and!; [done | | done].
    simpl. by rewrite (mbind_ok _ _ _ _ _ H1).
Qed.

Lemma main_without_custom {U : UnicodeCase} version env b :
  voices_file env = Ok b ->
  main version (without_custom env)
  = ([], voices <- synthesize b ;; Ok (wyoming_info version voices, voices)).
Proof. intros Hb. unfold main, load_builtin, apply_custom; simpl. by rewrite Hb. Qed.

(** C8 does not hold of the code: the [except] clause keeps what a failed
    merge had already changed. With the builtin voice "Aria" of "google"
    and a custom "google" entry with the voice "Nova" and the number 5 for
    its languages, line 81 raises TypeError after line 78 stored "Nova",
    and the catalog has two voices where the builtin table alone gives
    one. With the number 5 among the custom voices and the number 7 for
    the languages, line 81 raises TypeError after 5 was appended, and then
    line 97 raises TypeError out of [main], which starts from the builtin
    table alone. *)
Theorem failed_merge_is_not_undone {U : UnicodeCase} :
  snd (merge_custom google_nova_bad_languages (table_json google_aria)) = Raise TypeError
  /\ catalog "1.0.0"
       (env_with_custom (Ok (table_json google_aria)) (Ok google_nova_bad_languages))
     = Ok [tts_voice "google" "Aria" "en_US"; tts_voice "google" "Nova" "en_US"]
  /\ catalog "1.0.0"
       (without_custom
          (env_with_custom (Ok (table_json google_aria)) (Ok google_nova_bad_languages)))
     = Ok [tts_voice "google" "Aria" "en_US"]
  /\ merge_custom google_number_voice (table_json google_aria)
     = (JObj [("google", JObj [("voices", JArr [JStr "Aria"; JNum 5]);
                               ("languages", strings ["en_US"])])],
        Raise TypeError)
  /\ main "1.0.0" (env_with_custom (Ok (table_json google_aria)) (Ok google_number_voice))
     = ([CustomFailed TypeError], Raise TypeError)
  /\ catalog "1.0.0"
       (without_custom
          (env_with_custom (Ok (table_json google_aria)) (Ok google_number_voice)))
     = Ok [tts_voice "google" "Aria" "en_US"].
Proof. split_and!; vm_compute; reflexivity. Qed.

(** ** What the override block leaves alone *)

Lemma mbind_inv_ok {A B} (m : M A) (k : A -> M B) vd vd' b :
  mbind m k vd = (vd', Ok b) ->
  exists vd1 a, m vd = (vd1, Ok a) /\ k a vd1 = (vd', Ok b).
Proof.
  intros H. apply mbind_inv in H as [(e & _ & [=])|H]; [done].
Qed.

Lemma preserves_ret {A} I (a : A) : preserves I (ret a).
Proof. intros vd vd' r HI [= <- _]. done. Qed.

Lemma preserves_lift {A} I (x : result A) : preserves I (lift x).
Proof. intros vd vd' r HI [= <- _]. done. Qed.

Lemma preserves_get I : preserves I get.
Proof. intros vd vd' r HI [= <- _]. done. Qed.

Lemma preserves_bind {A B} I (m : M A) (k : A -> M B) :
  preserves I m -> (forall a, preserves I (k a)) -> preserves I (mbind m k).
Proof.
  intros Hm Hk vd vd' r HI H.
  apply mbind_inv in H as [(e & H & _)|(vd1 & a & H1 & H2)].
  - by eapply Hm.
  - eapply Hk; [|exact H2]. by eapply Hm.
Qed.

Lemma store_field_cases provider k value vd vd' r :
  store_field provider k value vd = (vd', r) ->
  (vd' = vd /\ exists e, r = Raise e)
  \/ (exists t ms,
        vd = JObj t
        /\ dict_get provider t = Some (JObj ms)
        /\ vd' = JObj (dict_set provider (JObj (dict_set k value ms)) t)
        /\ r = Ok tt).
Proof.
  unfold store_field, mbind, get, lift, put.
  destruct vd as [| | | | |t]; simpl; try (intros [= <- <-]; left; by eauto).
  destruct (dict_get provider t) as [entry|] eqn:Ht; simpl;
    [|intros [= <- <-]; left; by eauto].
  destruct entry as [| | | | |ms]; simpl; try (intros [= <- <-]; left; by eauto).
  intros [= <- <-]. right. by exists t, ms.
Qed.

Lemma dict_mem_set_eq {A} k (v : A) d : dict_mem k (dict_set k v d) = true.
Proof. unfold dict_mem. by rewrite dict_get_set_eq. Qed.

Lemma dict_mem_set_mono {A} k k' (v : A) d :
  dict_mem k d = true -> dict_mem k (dict_set k' v d) = true.
Proof.
  destruct (decide (k' = k)) as [->|Hne]; [intros _; apply dict_mem_set_eq|].
  unfold dict_mem. by rewrite dict_get_set_ne.
Qed.

Lemma store_field_maps_to k j provider kk value :
  provider <> k -> preserves (maps_to k j) (store_field provider kk value).
Proof.
  intros Hne vd vd' r (t & -> & Ht) H.
  apply store_field_cases in H as [[-> _]|(t' & ms & [= <-] & _ & -> & _)].
  - by exists t.
  - eexists. split; [done|]. by rewrite dict_get_set_ne.
Qed.

Lemma store_field_entry_has_key k kk provider kk' value :
  preserves (entry_has_key k kk) (store_field provider kk' value).
Proof.
  intros vd vd' r (t & ms & -> & Ht & Hms) H.
  apply store_field_cases in H as [[-> _]|(t' & ms' & [= <-] & Hp & -> & _)].
  - by exists t, ms.
  - destruct (decide (provider = k)) as [->|Hne].
    + rewrite Ht in Hp. injection Hp as <-.
      eexists _, _. split_and!; [done | apply dict_get_set_eq |].
      by apply dict_mem_set_mono.
    + exists (dict_set provider (JObj (dict_set kk' value ms')) t), ms.
      split_and!; [done | by rewrite dict_get_set_ne | done].
Qed.

Lemma store_field_has_provider k provider kk value :
  preserves (has_provider k) (store_field provider kk value).
Proof.
  intros vd vd' r (t & -> & Ht) H.
  apply store_field_cases in H as [[-> _]|(t' & ms & [= <-] & _ & -> & _)].
  - by exists t.
  - eexists. split; [done|]. by apply dict_mem_set_mono.
Qed.

Lemma merge_loop_preserves I aliased provider k items :
  (forall value, preserves I (store_field provider k value)) ->
  forall base, preserves I (merge_loop aliased provider k items base).
Proof.
  intros Hstore. induction items as [|v items IH]; intros base; simpl.
  - apply preserves_ret.
  - apply preserves_bind; [apply preserves_lift|]. intros [|]; [apply IH|].
    apply preserves_bind; [apply preserves_lift|]. intros base'.
    apply preserves_bind; [|intros _; apply IH].
    destruct aliased; [apply Hstore | apply preserves_ret].
Qed.

Lemma merge_field_preserves I k provider pdata :
  (forall value, preserves I (store_field provider k value)) ->
  preserves I (merge_field k provider pdata).
Proof.
  intros Hstore. unfold merge_field.
  apply preserves_bind; [apply preserves_get|]. intros vd.
  apply preserves_bind; [apply preserves_lift|]. intros entry.
  apply preserves_bind; [apply preserves_lift|]. intros base.
  apply preserves_bind; [apply preserves_lift|]. intros extra.
  apply preserves_bind; [apply preserves_lift|]. intros items.
  apply preserves_bind; [by apply merge_loop_preserves|]. intros merged.
  apply Hstore.
Qed.

Lemma merge_provider_preserves I provider pdata :
  (forall k value, preserves I (store_field provider k value)) ->
  (forall vd vd',
     I vd -> py_in (JStr provider) vd = Ok false ->
     py_setitem vd provider pdata = Ok vd' -> I vd') ->
  preserves I (merge_provider provider pdata).
Proof.
  intros Hstore Hnew vd vd' r HI. unfold merge_provider.
  unfold mbind at 1 2, get, lift.
  destruct (py_in (JStr provider) vd) as [[|]|e] eqn:Hin.
  - clear Hin. revert vd vd' r HI.
    apply preserves_bind; [|intros _]; by apply merge_field_preserves.
  - unfold mbind, lift, put.
    destruct (py_setitem vd provider pdata) as [vd1|e] eqn:Hset.
    + intros [= <- _]. by eapply Hnew.
    + by intros [= <- _].
  - by intros [= <- _].
Qed.

(** Another provider's entry is untouched, whatever the outcome. *)
Lemma merge_provider_maps_to k j provider pdata :
  provider <> k -> preserves (maps_to k j) (merge_provider provider pdata).
Proof.
  intros Hne. apply merge_provider_preserves.
  - intros kk value. by apply store_field_maps_to.
  - intros vd vd' (t & -> & Ht) _ [= <-].
    eexists. split; [done|]. by rewrite dict_get_set_ne.
Qed.

Lemma merge_provider_has_provider k provider pdata :
  preserves (has_provider k) (merge_provider provider pdata).
Proof.
  apply merge_provider_preserves.
  - intros kk value. apply store_field_has_provider.
  - intros vd vd' (t & -> & Ht) _ [= <-].
    eexists. split; [done|]. by apply dict_mem_set_mono.
Qed.

Lemma merge_provider_entry_has_key k kk provider pdata :
  preserves (entry_has_key k kk) (merge_provider provider pdata).
Proof.
  apply merge_provider_preserves.
  - intros kk' value. apply store_field_entry_has_key.
  - intros vd vd' (t & ms & -> & Ht & Hms). simpl. intros [= Hin] [= <-].
    exists (dict_set provider pdata t), ms. split_and!; [done | | done].
    rewrite dict_get_set_ne; [done|]. intros ->.
    unfold dict_mem in Hin. by rewrite Ht in Hin.
Qed.

Lemma merge_items_preserves I items :
  (forall kp, kp ∈ items -> preserves I (merge_provider (fst kp) (snd kp))) ->
  preserves I (merge_items items).
Proof.
  induction items as [|[k pdata] items IH]; intros H; simpl.
  - apply preserves_ret.
  - apply preserves_bind.
    + apply (H (k, pdata)), list_elem_of_here.
    + intros _. apply IH. intros kp Hkp. apply H. by apply list_elem_of_further.
Qed.

Lemma merge_custom_dict items vd : merge_custom (JObj items) vd = merge_items items vd.
Proof. done. Qed.

Lemma merge_custom_maps_to k j custom_data :
  match custom_data with JObj items => dict_mem k items | _ => false end = false ->
  preserves (maps_to k j) (merge_custom custom_data).
Proof.
  intros Hk.
  destruct custom_data as [| | | | |items];
    try (intros vd vd' r HI [= <- _]; exact HI).
  intros vd vd' r HI. rewrite merge_custom_dict. revert vd vd' r HI.
  apply merge_items_preserves. intros [k' pdata] Hin.
  apply merge_provider_maps_to. simpl. intros ->.
  unfold dict_mem in Hk. destruct (dict_get k items) eqn:E; [done|].
  apply dict_get_None in E. apply E. apply list_elem_of_fmap. by exists (k, pdata).
Qed.

Lemma apply_custom_maps_to env k j vd :
  custom_provides env k = false ->
  maps_to k j vd -> maps_to k j (snd (apply_custom env vd)).
Proof.
  unfold custom_provides, apply_custom. intros Hk HI.
  destruct (String.eqb (CUSTOM_VOICES_PATH env) ""); [done|].
  destruct (custom_file_exists env) as [[|]|e]; [|done|done].
  destruct (custom_file env) as [c|e]; [|done]. simpl in Hk.
  destruct (merge_custom c vd) as [vd' r] eqn:Hm.
  assert (maps_to k j vd') by (by eapply (merge_custom_maps_to k j c)).
  by destruct r.
Qed.

(** ** Entries without "voices" or "languages" *)

(** A successful pass of lines 74-78 (80-84) leaves the key in the entry. *)
Lemma merge_field_entry_has_key k provider pdata vd vd' :
  merge_field k provider pdata vd = (vd', Ok tt) -> entry_has_key provider k vd'.
Proof.
  unfold merge_field. intros H.
  do 6 (apply mbind_inv_ok in H as (? & ? & _ & H)).
  apply store_field_cases in H as [[_ [e [=]]]|(t & ms & _ & _ & -> & _)].
  eexists _, _. split_and!; [done | apply dict_get_set_eq | apply dict_mem_set_eq].
Qed.

Lemma merge_provider_both_keys k pdata vd vd' :
  has_provider k vd ->
  merge_provider k pdata vd = (vd', Ok tt) ->
  entry_has_key k "voices" vd' /\ entry_has_key k "languages" vd'.
Proof.
  intros (t & -> & Ht). unfold merge_provider, mbind at 1 2, get, lift; simpl.
  rewrite Ht. intros H. apply mbind_inv_ok in H as (vd1 & [] & H1 & H2).
  split.
  - eapply (merge_field_preserves (entry_has_key k "voices")); [| |exact H2].
    + intros value. apply store_field_entry_has_key.
    + by eapply merge_field_entry_has_key.
  - by eapply merge_field_entry_has_key.
Qed.

Lemma merge_items_both_keys k items : forall vd vd',
  has_provider k vd ->
  k ∈ dict_keys items ->
  merge_items items vd = (vd', Ok tt) ->
  entry_has_key k "voices" vd' /\ entry_has_key k "languages" vd'.
Proof.
  induction items as [|[k0 p0] items IH]; intros vd vd' Hvd Hk H; simpl in *.
  - by apply elem_of_nil in Hk.
  - apply mbind_inv_ok in H as (vd1 & [] & H1 & H2).
    destruct (decide (k0 = k)) as [->|Hne].
    + destruct (merge_provider_both_keys _ _ _ _ Hvd H1) as [Hv Hl].
      split; (eapply merge_items_preserves; [|eassumption|exact H2]);
        intros kp _; apply merge_provider_entry_has_key.
    + apply elem_of_cons in Hk as [->|Hk]; [done|].
      apply (IH vd1); [|done|done].
      by eapply merge_provider_has_provider.
Qed.

Lemma for_each_raise_inv {A B} (body : A -> result (list B)) xs e :
  for_each body xs = Raise e -> exists x, x ∈ xs /\ body x = Raise e.
Proof.
  induction xs as [|x xs IH]; simpl; [done|].
  destruct (body x) as [ys|e'] eqn:Hx; simpl.
  - destruct (for_each body xs) as [zs|e'']; simpl; [done|].
    intros [= ->]. destruct IH as (y & Hy & Hb); [done|].
    exists y. split; [by apply list_elem_of_further | done].
  - intros [= ->]. exists x. split; [apply list_elem_of_here | done].
Qed.

Lemma voices_loop_lacks {U : UnicodeCase} t k entry :
  dict_get k t = Some entry -> lacks_needed_key entry ->
  exists key, voices_loop (JObj t) k = Raise (KeyError key).
Proof.
  intros Ht (ms & -> & [Hv|(Hl & vs & v & rest & Hv & Hiter)]).
  - exists "voices". unfold voices_loop; simpl. rewrite Ht; simpl. by rewrite Hv.
  - exists "languages". unfold voices_loop; simpl. rewrite Ht; simpl.
    rewrite Hv; simpl. rewrite Hiter; simpl.
    unfold languages_loop; simpl. rewrite Ht; simpl. by rewrite Hl.
Qed.

Lemma voices_loop_loose {U : UnicodeCase} t k j e :
  dict_get k t = Some j -> loose_entry j ->
  voices_loop (JObj t) k = Raise e -> exists key, e = KeyError key.
Proof.
  intros Ht (ms & -> & Hv & Hl). unfold voices_loop; simpl. rewrite Ht; simpl.
  destruct (dict_get "voices" ms) as [jv|]; simpl; [|intros [= <-]; eauto].
  destruct Hv as (vs & ->); simpl. intros H.
  apply for_each_raise_inv in H as (jv & Hjv & H).
  apply list_elem_of_fmap in Hjv as (v & -> & _).
  unfold languages_loop in H; simpl in H. rewrite Ht in H; simpl in H.
  destruct (dict_get "languages" ms) as [jl|]; simpl in H; [|injection H as <-; eauto].
  destruct Hl as (ls & ->); simpl in H.
  apply for_each_raise_inv in H as (jl & Hjl & H).
  apply list_elem_of_fmap in Hjl as (l & -> & _). done.
Qed.

Lemma synthesize_lacks {U : UnicodeCase} t k entry :
  dict_get k t = Some entry -> lacks_needed_key entry ->
  raises (synthesize (JObj t)).
Proof.
  intros Ht Hlacks. unfold synthesize; simpl.
  apply (for_each_raises _ _ k).
  - apply list_elem_of_fmap. exists (k, entry).
    split; [done | by apply dict_get_Some_elem].
  - destruct (voices_loop_lacks t k entry Ht Hlacks) as (key & ->). done.
Qed.

Lemma synthesize_loose {U : UnicodeCase} t e :
  Forall (fun kv => loose_entry (snd kv)) t ->
  synthesize (JObj t) = Raise e -> exists key, e = KeyError key.
Proof.
  intros Hloose. unfold synthesize; simpl. intros H.
  apply for_each_raise_inv in H as (k & Hk & H).
  destruct (dict_get k t) as [j|] eqn:Ht.
  - apply (voices_loop_loose t k j e Ht); [|done].
    rewrite Forall_forall in Hloose.
    apply (Hloose (k, j)). by apply dict_get_Some_elem.
  - apply dict_get_None in Ht. done.
Qed.

(** C10, as the code has it. An entry that has no "voices", or that has a
    voice and no "languages", makes the loops of lines 91-93 raise instead
    of building voices, and the exception is a KeyError when the entries
    hold lists of strings where they hold anything. A successful merge
    leaves both keys in the entry of a provider that both tables have. The
    entry of a provider that the custom table does not have is the builtin
    one, so when it lacks such a key [main] raises. An entry whose voices
    are empty is passed over without a look at its "languages". *)
Theorem missing_key_raises {U : UnicodeCase} :
  (forall t k entry,
     dict_get k t = Some entry -> lacks_needed_key entry ->
     raises (synthesize (JObj t))
     /\ (Forall (fun kv => loose_entry (snd kv)) t ->
         exists key, synthesize (JObj t) = Raise (KeyError key)))
  /\ (forall items t k vd',
        dict_mem k t = true -> dict_mem k items = true ->
        merge_custom (JObj items) (JObj t) = (vd', Ok tt) ->
        exists t' ms',
          vd' = JObj t'
          /\ dict_get k t' = Some (JObj ms')
          /\ dict_mem "voices" ms' = true
          /\ dict_mem "languages" ms' = true)
  /\ (forall version env t k entry,
        voices_file env = Ok (JObj t) ->
        dict_get k t = Some entry -> lacks_needed_key entry ->
        custom_provides env k = false ->
        raises (snd (main version env)))
  /\ (forall t k ms vs,
        dict_get k t = Some (JObj ms) ->
        dict_get "voices" ms = Some vs ->
        py_iter vs = Ok [] ->
        voices_loop (JObj t) k = Ok []).
Proof.
  split_and!.
  - intros t k entry Ht Hlacks.
    pose proof (synthesize_lacks t k entry Ht Hlacks) as Hr. split; [done|].
    intros Hloose. destruct (synthesize (JObj t)) as [|e] eqn:E; [done|].
    destruct (synthesize_loose t e Hloose E) as (key & ->). by exists key.
  - intros items t k vd' Ht Hitems H. rewrite merge_custom_dict in H.
    destruct (merge_items_both_keys k items (JObj t) vd') as [Hv Hl]; [| |done|].
    + by exists t.
    + unfold dict_mem in Hitems. destruct (dict_get k items) as [p|] eqn:E; [|done].
      apply list_elem_of_fmap. exists (k, p). split; [done | by apply dict_get_Some_elem].
    + destruct Hv as (t1 & ms1 & -> & Ht1 & Hms1).
      destruct Hl as (t2 & ms2 & [= <-] & Ht2 & Hms2).
      rewrite Ht1 in Ht2. injection Ht2 as <-. by exists t1, ms1.
  - intros version env t k entry Hb Ht Hlacks Hcustom.
    unfold main, load_builtin. rewrite Hb.
    pose proof (apply_custom_maps_to env k entry (JObj t) Hcustom) as Hmaps.
    destruct (apply_custom env (JObj t)) as [log' vd']. simpl in *.
    destruct Hmaps as (t' & -> & Ht'); [by exists t|].
    pose proof (synthesize_lacks t' k entry Ht' Hlacks) as Hr.
    by destruct (synthesize (JObj t')).
  - intros t k ms vs Ht Hv Hiter. unfold voices_loop; simpl.
    rewrite Ht; simpl. rewrite Hv; simpl. by rewrite Hiter.
Qed.

Lemma missing_key_raises_witness :
  raises (snd (main "1.0.0" (env_builtin_only (Ok empty_entry)))).
Proof.
  apply (proj1 (proj2 (proj2 missing_key_raises)) "1.0.0"
           (env_builtin_only (Ok empty_entry))
           [("silent", JObj [])] "silent" (JObj [])).
  - reflexivity.
  - reflexivity.
  - exists []. split; [reflexivity|]. left. reflexivity.
  - reflexivity.
Defined.

(** C10 fails as stated: the builtin entry {"voices": []} has no
    "languages", yet no lookup fails, because the languages are looked up
    once per voice; [main] goes through with an empty catalog. *)
Lemma no_voice_needs_no_languages :
  py_getitem no_voice_no_languages "silent" = Ok (JObj [("voices", JArr [])])
  /\ py_getitem (JObj [("voices", JArr [])]) "languages" = Raise (KeyError "languages")
  /\ synthesize no_voice_no_languages = Ok []
  /\ main "1.0.0" (env_builtin_only (Ok no_voice_no_languages))
     = ([], Ok (wyoming_info "1.0.0" [], [])).
Proof. split_and!; reflexivity. Qed.

(** ** The whole of [main] on tables of the expected shape *)

(** With both files of the expected shape nothing is logged, nothing is
    raised, and the voices are those of the merged table. *)
Lemma main_rep {U : UnicodeCase} version env jb b jo o :
  voices_file env = Ok jb -> represents jb b ->
  CUSTOM_VOICES_PATH env <> "" -> custom_file_exists env = Ok true ->
  custom_file env = Ok jo -> represents jo o ->
  main version env
  = ([], Ok (wyoming_info version (map voice_of_triple (triples (merge_tables b o))),
             map voice_of_triple (triples (merge_tables b o)))).
Proof.
  intros Hb Hrb Hpath Hex Hc Hro. apply String.eqb_neq in Hpath.
  destruct (merge_custom_rep jb b jo o Hrb Hro) as (jm & Hm & Hrm).
  unfold main, load_builtin, apply_custom. rewrite Hb, Hpath, Hex, Hc, Hm.
  by rewrite (synthesize_rep jm _ Hrm).
Qed.

(** The scenario of an override that adds a provider. *)
Example override_adds_provider :
  catalog "1.0.0"
    (env_with_custom
       (Ok (table_json google_aria))
       (Ok (table_json [("custom1", {| voices := ["Bob"]; languages := ["fr_FR"] |})])))
  = Ok [tts_voice "google" "Aria" "en_US"; tts_voice "custom1" "Bob" "fr_FR"]
  /\ tv_name (tts_voice "custom1" "Bob" "fr_FR") = "fr-FR-custom1-Bob"
  /\ tv_description (tts_voice "custom1" "Bob" "fr_FR") = "custom1_Bob"
  /\ at_name (tv_attribution (tts_voice "custom1" "Bob" "fr_FR")) = "Custom1".
Proof. split_and!; [vm_compute; reflexivity | done | done | done]. Qed.

(** The scenario of an override that extends a provider. *)
Example override_extends_provider :
  merge_custom
    (table_json [("google", {| voices := ["Aria"; "Nova"]; languages := ["en_US"] |})])
    (table_json google_aria)
  = (table_json [("google", {| voices := ["Aria"; "Nova"]; languages := ["en_US"] |})],
     Ok tt).
Proof. vm_compute. reflexivity. Qed.

(** * Further properties of the code *)

(** ** The merged table, provider by provider *)

(** Lines 69-84 on tables of the expected shape: a provider of both
    tables gets the merged lists, a provider of the builtin table alone
    keeps its entry, a provider of the override alone gets the override
    entry as it is, and no other provider appears. *)
Theorem merged_entries_by_provider jb jo b o :
  represents jb b -> represents jo o ->
  exists jm m,
    merge_custom jo jb = (jm, Ok tt)
    /\ represents jm m
    /\ forall k, dict_get k m = merged_entry (dict_get k b) (dict_get k o).
Proof.
  intros Hb Ho.
  destruct (merge_custom_rep jb b jo o Hb Ho) as (jm & Hm & Hrep).
  exists jm, (merge_tables b o). split_and!; [done | done |].
  intros k. destruct Ho as (os & _ & Hwo & _).
  rewrite merge_tables_get by done. unfold merged_entry.
  by destruct (dict_get k o), (dict_get k b).
Qed.

Lemma merged_entries_by_provider_witness :
  exists jm m,
    merge_custom (table_json wider_override) (table_json google_openai) = (jm, Ok tt)
    /\ represents jm m
    /\ forall k,
         dict_get k m
         = merged_entry (dict_get k google_openai) (dict_get k wider_override).
Proof.
  apply (merged_entries_by_provider
           (table_json google_openai) (table_json wider_override)
           google_openai wider_override);
    apply represents_table_json; apply (bool_decide_unpack _); vm_compute; reflexivity.
Defined.

Lemma merge_entry_into_keys b kp :
  dict_keys (merge_entry_into b kp)
  = if dict_mem (fst kp) b then dict_keys b else dict_keys b ++ [fst kp].
Proof.
  unfold merge_entry_into, dict_mem.
  destruct (dict_get (fst kp) b) eqn:E; rewrite dict_keys_set; unfold dict_mem;
    by rewrite E.
Qed.

Lemma filter_not_in_snoc (ks : list string) (k0 : string) (l : list string) :
  k0 ∉ l ->
  filter (fun k => k ∉ ks ++ [k0]) l = filter (fun k => k ∉ ks) l.
Proof.
  induction l as [|k l IH]; intros Hk0; [done|].
  apply not_elem_of_cons in Hk0 as [Hne Hk0].
  rewrite !filter_cons, IH by done.
  destruct (decide (k ∉ ks ++ [k0])) as [H1|H1], (decide (k ∉ ks)) as [H2|H2];
    try done.
  - exfalso. apply H2. intros Hin. apply H1, elem_of_app. by left.
  - exfalso. apply H1. intros Hin. apply elem_of_app in Hin as [Hin|Hin]; [done|].
    apply list_elem_of_singleton in Hin. congruence.
Qed.

Lemma merge_tables_keys o : forall b,
  dict_wf o ->
  dict_keys (merge_tables b o)
  = dict_keys b ++ filter (fun k => k ∉ dict_keys b) (dict_keys o).
Proof.
  induction o as [|[k0 p0] o IH]; intros b Hwf.
  - simpl. by rewrite app_nil_r.
  - apply NoDup_cons in Hwf as [Hk0 Hwf].
    change (merge_tables b ((k0, p0) :: o))
      with (merge_tables (merge_entry_into b (k0, p0)) o).
    rewrite IH by done. rewrite merge_entry_into_keys.
    change (dict_keys ((k0, p0) :: o)) with (k0 :: dict_keys o).
    change ((k0, p0).1) with k0 in *.
    unfold dict_mem. destruct (dict_get k0 b) eqn:E.
    + rewrite filter_cons_False; [done|].
      intros Hn. apply dict_get_None in Hn. congruence.
    + apply dict_get_None in E. rewrite filter_cons_True by done.
      rewrite <- app_assoc. simpl. do 2 f_equal.
      by apply filter_not_in_snoc.
Qed.

(** ** The order of the providers *)

(** The merged table keeps the builtin providers in their order and puts
    the providers that only the override has after them, in override
    order; this is the order in which the voices are built. *)
Theorem merged_provider_order jb jo b o :
  represents jb b -> represents jo o ->
  exists jm,
    merge_custom jo jb = (jm, Ok tt)
    /\ py_keys jm
       = Ok (dict_keys b ++ filter (fun k => k ∉ dict_keys b) (dict_keys o)).
Proof.
  intros Hb Ho.
  destruct (merge_custom_rep jb b jo o Hb Ho) as (jm & Hm & (ms & -> & _ & Hrep)).
  exists (JObj ms). split; [done|]. simpl. f_equal.
  rewrite (table_rep_keys _ _ Hrep). apply merge_tables_keys.
  by destruct Ho as (os & _ & Hwo & _).
Qed.

Lemma merged_provider_order_witness :
  exists jm,
    merge_custom (table_json wider_override) (table_json google_openai) = (jm, Ok tt)
    /\ py_keys jm
       = Ok (dict_keys google_openai
             ++ filter (fun k => k ∉ dict_keys google_openai) (dict_keys wider_override)).
Proof.
  apply (merged_provider_order
           (table_json google_openai) (table_json wider_override)
           google_openai wider_override);
    apply represents_table_json; apply (bool_decide_unpack _); vm_compute; reflexivity.
Defined.

(** ** Overrides that add nothing *)

Lemma merge_lists_covered extra : forall base : list string,
  extra ⊆ base -> merge_lists base extra = base.
Proof.
  induction extra as [|v extra IH]; intros base Hsub; [done|].
  rewrite merge_lists_cons.
  rewrite bool_decide_eq_true_2 by (apply Hsub, list_elem_of_here).
  apply IH. intros x Hx. apply Hsub. by apply list_elem_of_further.
Qed.

Lemma merge_lists_extra_subset (base extra : list string) :
  extra ⊆ merge_lists base extra.
Proof.
  intros v Hv. rewrite merge_lists_additions, elem_of_app, additions_elem.
  destruct (decide (v ∈ base)); tauto.
Qed.

Lemma merge_provider_covered ms t k jp p e :
  table_rep ms t -> entry_rep jp p ->
  dict_get k t = Some e ->
  voices p ⊆ voices e -> languages p ⊆ languages e ->
  merge_provider k jp (JObj ms) = (JObj ms, Ok tt).
Proof.
  intros Hrep (ps & -> & Hpv & Hpl) Ht Hv Hl.
  pose proof (table_rep_get ms t k Hrep) as Hk. rewrite Ht in Hk.
  destruct (dict_get k ms) as [je|] eqn:Hms; [|done].
  destruct Hk as (es & -> & Hev & Hel).
  unfold merge_provider, mbind at 1 2, get, lift; simpl.
  unfold dict_mem. rewrite Hms.
  assert (forall kk bl pl,
            dict_get kk es = Some (strings bl) ->
            dict_get kk ps = Some (strings pl) -> pl ⊆ bl ->
            merge_field kk k (JObj ps) (JObj ms) = (JObj ms, Ok tt)) as Hfield.
  { intros kk bl pl Hb Hp Hsub.
    rewrite (merge_field_strings kk k ms es ps bl pl Hms Hb Hp).
    rewrite (merge_lists_covered _ _ Hsub).
    by rewrite (dict_set_id kk _ es Hb), (dict_set_id k _ ms Hms). }
  rewrite (mbind_ok _ _ _ _ _ (Hfield "voices" _ _ Hev Hpv Hv)).
  by apply (Hfield "languages" (languages e) (languages p)).
Qed.

Lemma merge_items_covered os o : forall ms t,
  table_rep os o -> table_rep ms t -> covered t o ->
  merge_items os (JObj ms) = (JObj ms, Ok tt).
Proof.
  intros ms t Ho Ht. unfold covered.
  induction Ho as [|[k jp] [k' p] os o [Hk Hp] _ IH]; intros Hcov; [done|].
  simpl in Hk. subst k'. apply Forall_cons in Hcov as [(e & He & Hv & Hl) Hcov].
  simpl. rewrite (mbind_ok _ _ _ _ _ (merge_provider_covered ms t k jp p e Ht Hp He Hv Hl)).
  by apply IH.
Qed.

Lemma merge_custom_covered jb jo b o :
  represents jb b -> represents jo o -> covered b o ->
  merge_custom jo jb = (jb, Ok tt).
Proof.
  intros (ms & -> & _ & Hb) (os & -> & _ & Ho) Hcov.
  rewrite merge_custom_dict. by eapply merge_items_covered.
Qed.

(** An override all of whose providers, voices and languages the table
    already has leaves [voices_data] exactly as it is; the empty override
    is the simplest case. *)
Theorem merge_covered_changes_nothing jb jo b o :
  represents jb b -> represents jo o -> covered b o ->
  merge_custom jo jb = (jb, Ok tt).
Proof. apply merge_custom_covered. Qed.

Lemma merge_covered_changes_nothing_witness :
  merge_custom (table_json google_nova) (table_json wider_override)
  = (table_json wider_override, Ok tt).
Proof.
  apply (merge_covered_changes_nothing
           (table_json wider_override) (table_json google_nova)
           wider_override google_nova).
  - apply represents_table_json. apply (bool_decide_unpack _). vm_compute. reflexivity.
  - apply represents_table_json. apply NoDup_singleton.
  - constructor; [|constructor]. eexists. split; [reflexivity|]. simpl.
    split; intros x Hx; apply list_elem_of_singleton in Hx as ->;
      apply (bool_decide_unpack _); vm_compute; reflexivity.
Defined.

Lemma merge_tables_covered b o : dict_wf o -> covered (merge_tables b o) o.
Proof.
  intros Hwf. apply Forall_forall. intros [k p] Hin.
  pose proof (dict_get_elem k p o Hwf Hin) as Hget.
  eexists. simpl. rewrite merge_tables_get by done. rewrite Hget.
  split; [reflexivity|].
  destruct (dict_get k b); simpl; [|done].
  split; apply merge_lists_extra_subset.
Qed.

(** Merging the same override a second time changes nothing any more. *)
Theorem merge_twice_is_merge_once jb jo b o :
  represents jb b -> represents jo o ->
  exists jm,
    merge_custom jo jb = (jm, Ok tt) /\ merge_custom jo jm = (jm, Ok tt).
Proof.
  intros Hb Ho.
  destruct (merge_custom_rep jb b jo o Hb Ho) as (jm & Hm & Hrep).
  exists jm. split; [done|].
  apply (merge_custom_covered jm jo (merge_tables b o) o); [done | done |].
  apply merge_tables_covered. by destruct Ho as (os & _ & Hwo & _).
Qed.

Lemma merge_twice_is_merge_once_witness :
  exists jm,
    merge_custom (table_json wider_override) (table_json google_openai) = (jm, Ok tt)
    /\ merge_custom (table_json wider_override) jm = (jm, Ok tt).
Proof.
  apply (merge_twice_is_merge_once
           (table_json google_openai) (table_json wider_override)
           google_openai wider_override);
    apply represents_table_json; apply (bool_decide_unpack _); vm_compute; reflexivity.
Defined.

(** ** What no override can do *)

Lemma store_field_keys_start_with ks provider kk value :
  preserves (keys_start_with ks) (store_field provider kk value).
Proof.
  intros vd vd' r (t & -> & Hks) H.
  apply store_field_cases in H as [[-> _]|(t' & ms & [= <-] & Hp & -> & _)].
  - by exists t.
  - eexists. split; [done|]. rewrite dict_keys_set. unfold dict_mem. by rewrite Hp.
Qed.

Lemma merge_provider_keys_start_with ks provider pdata :
  preserves (keys_start_with ks) (merge_provider provider pdata).
Proof.
  apply merge_provider_preserves.
  - intros kk value. apply store_field_keys_start_with.
  - intros vd vd' (t & -> & Hks) _ [= <-].
    eexists. split; [done|]. rewrite dict_keys_set.
    destruct (dict_mem provider t); [done | by apply prefix_app_r].
Qed.

(** Whatever the custom table holds, and whether the merge goes through
    or raises, [voices_data] stays a dict, its providers stay where they
    were (new ones come after them), and the entry of a provider that the
    custom table does not name is not touched. *)
Theorem merge_never_drops_a_provider (custom_data : json) (t : list (string * json)) :
  exists t',
    fst (merge_custom custom_data (JObj t)) = JObj t'
    /\ dict_keys t `prefix_of` dict_keys t'
    /\ forall k j,
         dict_get k t = Some j ->
         match custom_data with JObj items => dict_mem k items | _ => false end = false ->
         dict_get k t' = Some j.
Proof.
  destruct (merge_custom custom_data (JObj t)) as [vd' r] eqn:Hm. simpl.
  assert (keys_start_with (dict_keys t) vd') as (t' & -> & Hpre).
  { destruct custom_data as [| | | | |items];
      try (injection Hm as <- _; by exists t).
    rewrite merge_custom_dict in Hm.
    eapply (merge_items_preserves (keys_start_with (dict_keys t))); [| |exact Hm].
    - intros kp _. apply merge_provider_keys_start_with.
    - by exists t. }
  exists t'. split_and!; [done | done |].
  intros k j Hj Hk.
  destruct (merge_custom_maps_to k j custom_data Hk (JObj t) (JObj t') r)
    as (t'' & [= <-] & Hj'); [by exists t | done | done].
Qed.

(** ** New providers are taken as they are *)

Lemma merge_provider_lacks_provider k provider pdata :
  provider <> k -> preserves (lacks_provider k) (merge_provider provider pdata).
Proof.
  intros Hne. apply merge_provider_preserves.
  - intros kk value vd vd' r (t & -> & Ht) H.
    apply store_field_cases in H as [[-> _]|(t' & ms & [= <-] & _ & -> & _)].
    + by exists t.
    + eexists. split; [done|]. by rewrite dict_get_set_ne.
  - intros vd vd' (t & -> & Ht) _ [= <-].
    eexists. split; [done|]. by rewrite dict_get_set_ne.
Qed.

Lemma merge_provider_new k pdata vd :
  lacks_provider k vd ->
  exists vd', merge_provider k pdata vd = (vd', Ok tt) /\ maps_to k pdata vd'.
Proof.
  intros (t & -> & Ht).
  exists (JObj (dict_set k pdata t)). split.
  - unfold merge_provider, mbind, get, lift, put; simpl.
    unfold dict_mem. by rewrite Ht.
  - eexists. split; [done|]. apply dict_get_set_eq.
Qed.

Lemma merge_items_app l1 l2 vd :
  merge_items (l1 ++ l2) vd = mbind (merge_items l1) (fun _ => merge_items l2) vd.
Proof.
  revert vd. induction l1 as [|[k p] l1 IH]; intros vd; [done|].
  simpl. unfold mbind in *.
  destruct (merge_provider k p vd) as [vd1 [[]|e]]; [apply IH | done].
Qed.

Lemma synthesize_unusable {U : UnicodeCase} t k entry :
  dict_get k t = Some entry -> unusable_entry entry ->
  raises (synthesize (JObj t)).
Proof.
  intros Ht Hbad.
  destruct entry as [| | | | |ms]; try (by eapply synthesize_lacks);
    (unfold synthesize; simpl; apply (for_each_raises _ _ k);
     [ apply list_elem_of_fmap; eexists (k, _);
       split; [done | by apply dict_get_Some_elem]
     | unfold voices_loop; simpl; by rewrite Ht ]).
Qed.

(** A provider that only the custom table has is taken as it is. When the
    entries before it in the custom table merge, its own entry raises
    nothing, whatever JSON value it is, and it is in the table that [main]
    goes on with, under its key and unchanged, also when a later entry
    raises. So when that entry is no object, or lacks a key the loops
    need, the [except] clause is of no help: [main] raises while it builds
    the voices. *)
Theorem new_provider_is_not_validated {U : UnicodeCase} version env t pre k pdata post :
  voices_file env = Ok (JObj t) ->
  CUSTOM_VOICES_PATH env <> "" ->
  custom_file_exists env = Ok true ->
  custom_file env = Ok (JObj (pre ++ (k, pdata) :: post)) ->
  dict_wf (pre ++ (k, pdata) :: post) ->
  dict_get k t = None ->
  snd (merge_custom (JObj pre) (JObj t)) = Ok tt ->
  snd (merge_custom (JObj (pre ++ [(k, pdata)])) (JObj t)) = Ok tt
  /\ maps_to k pdata (snd (apply_custom env (JObj t)))
  /\ (unusable_entry pdata -> raises (snd (main version env))).
Proof.
  intros Hb Hpath Hex Hc Hwf Ht Hpre.
  unfold dict_wf, dict_keys in Hwf. rewrite map_app in Hwf. simpl in Hwf.
  apply NoDup_app in Hwf as (_ & Hk_pre & Hwf).
  apply NoDup_cons in Hwf as [Hk_post _].
  rewrite merge_custom_dict in Hpre.
  destruct (merge_items pre (JObj t)) as [vd1 r1] eqn:Hm1. simpl in Hpre. subst r1.
  assert (lacks_provider k vd1) as Hlacks.
  { eapply (merge_items_preserves (lacks_provider k)); [|by exists t|exact Hm1].
    intros [k' p'] Hin. apply merge_provider_lacks_provider. simpl. intros ->.
    apply (Hk_pre k); [|apply list_elem_of_here].
    apply list_elem_of_fmap. by exists (k, p'). }
  destruct (merge_provider_new k pdata vd1 Hlacks) as (vd2 & Hm2 & Hmaps).
  assert (maps_to k pdata (snd (apply_custom env (JObj t)))) as Hfinal.
  { apply String.eqb_neq in Hpath.
    unfold apply_custom. rewrite Hpath, Hex, Hc, merge_custom_dict, merge_items_app.
    rewrite (mbind_ok _ _ _ _ _ Hm1). simpl. rewrite (mbind_ok _ _ _ _ _ Hm2).
    destruct (merge_items post vd2) as [vd' r] eqn:Hm3.
    assert (maps_to k pdata vd') as Hvd'.
    { eapply (merge_items_preserves (maps_to k pdata)); [|exact Hmaps|exact Hm3].
      intros [k' p'] Hin. apply merge_provider_maps_to. simpl. intros ->.
      apply Hk_post. apply list_elem_of_fmap. by exists (k, p'). }
    by destruct r. }
  split_and!.
  - rewrite merge_custom_dict, merge_items_app, (mbind_ok _ _ _ _ _ Hm1). simpl.
    by rewrite (mbind_ok _ _ _ _ _ Hm2).
  - exact Hfinal.
  - intros Hbad. unfold main, load_builtin. rewrite Hb.
    destruct (apply_custom env (JObj t)) as [log' vd']. simpl in *.
    destruct Hfinal as (t' & -> & Ht').
    pose proof (synthesize_unusable t' k pdata Ht' Hbad) as Hr.
    by destruct (synthesize (JObj t')).
Qed.

Lemma new_provider_is_not_validated_witness :
  snd (merge_custom (JObj ([] ++ [("custom1", JNum 5)])) (table_json google_aria)) = Ok tt
  /\ maps_to "custom1" (JNum 5)
       (snd (apply_custom
               (env_with_custom (Ok (table_json google_aria)) (Ok custom_with_number))
               (table_json google_aria)))
  /\ (unusable_entry (JNum 5) ->
      raises (snd (main "1.0.0"
                     (env_with_custom (Ok (table_json google_aria))
                                      (Ok custom_with_number))))).
Proof.
  apply (new_provider_is_not_validated "1.0.0"
           (env_with_custom (Ok (table_json google_aria)) (Ok custom_with_number))
           [("google", entry_json {| voices := ["Aria"]; languages := ["en_US"] |})]
           [] "custom1" (JNum 5) []).
  - reflexivity.
  - discriminate.
  - reflexivity.
  - reflexivity.
  - apply NoDup_singleton.
  - reflexivity.
  - reflexivity.
Defined.

(** ** No custom table *)

(** When no custom table is loaded, because CUSTOM_VOICES_PATH is empty,
    because it names no file, or because the existence test, [open] or
    [json.load] raised, [main] returns what it returns for the builtin
    file alone; when the builtin file loaded, the log holds nothing, the
    warning of line 86 or the exception logged at line 88, in that
    order of cases. *)
Theorem custom_table_not_loaded {U : UnicodeCase} version env log :
  not_loaded_log env = Some log ->
  snd (main version env) = snd (main version (without_custom env))
  /\ forall b, voices_file env = Ok b -> fst (main version env) = log.
Proof.
  unfold not_loaded_log, main, load_builtin, apply_custom, without_custom. simpl.
  intros Hlog. destruct (voices_file env) as [b|e] eqn:Hb.
  - destruct (String.eqb (CUSTOM_VOICES_PATH env) "").
    { injection Hlog as <-. split; [done | by intros b' _]. }
    destruct (custom_file_exists env) as [[|]|e].
    + destruct (custom_file env) as [c|e]; [done|].
      injection Hlog as <-. split; [done | by intros b' _].
    + injection Hlog as <-. split; [done | by intros b' _].
    + injection Hlog as <-. split; [done | by intros b' _].
  - split; [by destruct e | by intros b' [=]].
Qed.

Lemma custom_table_not_loaded_witness :
  snd (main "1.0.0" (env_custom_unreachable (Ok (table_json google_aria))))
  = snd (main "1.0.0" (without_custom (env_custom_unreachable (Ok (table_json google_aria)))))
  /\ forall b,
       voices_file (env_custom_unreachable (Ok (table_json google_aria))) = Ok b ->
       fst (main "1.0.0" (env_custom_unreachable (Ok (table_json google_aria))))
       = [CustomFailed OSError].
Proof.
  apply (custom_table_not_loaded "1.0.0"
           (env_custom_unreachable (Ok (table_json google_aria)))
           [CustomFailed OSError]).
  reflexivity.
Defined.

(** ** Files of the expected shape *)

(** When both files have the expected shape, [main] logs nothing and
    raises nothing; the voices it hands to the server are those of the
    merged table, one per (provider, voice, language) in the order of the
    table, and the [Info] holds them sorted. *)
Theorem expected_files_start_cleanly {U : UnicodeCase} version env jb b jo o :
  voices_file env = Ok jb -> represents jb b ->
  CUSTOM_VOICES_PATH env <> "" -> custom_file_exists env = Ok true ->
  custom_file env = Ok jo -> represents jo o ->
  main version env
  = ([], Ok (wyoming_info version (map voice_of_triple (triples (merge_tables b o))),
             map voice_of_triple (triples (merge_tables b o)))).
Proof. apply main_rep. Qed.

Lemma expected_files_start_cleanly_witness :
  main "1.0.0"
    (env_with_custom (Ok (table_json google_openai)) (Ok (table_json wider_override)))
  = ([], Ok (wyoming_info "1.0.0"
               (map voice_of_triple (triples (merge_tables google_openai wider_override))),
             map voice_of_triple (triples (merge_tables google_openai wider_override)))).
Proof.
  apply (expected_files_start_cleanly "1.0.0"
           (env_with_custom (Ok (table_json google_openai)) (Ok (table_json wider_override)))
           (table_json google_openai) google_openai
           (table_json wider_override) wider_override).
  - reflexivity.
  - apply represents_table_json. apply (bool_decide_unpack _). vm_compute. reflexivity.
  - discriminate.
  - reflexivity.
  - reflexivity.
  - apply represents_table_json. apply (bool_decide_unpack _). vm_compute. reflexivity.
Defined.

(** ** The voices that are built *)

Lemma for_each_ok_inv {A B} (body : A -> result (list B)) xs : forall zs z,
  for_each body xs = Ok zs -> z ∈ zs ->
  exists x ys, x ∈ xs /\ body x = Ok ys /\ z ∈ ys.
Proof.
  induction xs as [|x xs IH]; intros zs z; simpl.
  - intros [= <-] Hz. by apply elem_of_nil in Hz.
  - destruct (body x) as [ys|e] eqn:Hx; simpl; [|done].
    destruct (for_each body xs) as [zs'|e] eqn:Hxs; simpl; [|done].
    intros [= <-] Hz. apply elem_of_app in Hz as [Hz|Hz].
    + exists x, ys. split_and!; [apply list_elem_of_here | done | done].
    + destruct (IH zs' z eq_refl Hz) as (x' & ys' & Hx' & Hb & Hz').
      exists x', ys'. split_and!; [by apply list_elem_of_further | done | done].
Qed.

Lemma bind_ok_inv {A B} (r : result A) (k : A -> result B) b :
  bind r k = Ok b -> exists a, r = Ok a /\ k a = Ok b.
Proof. destruct r as [a|e]; simpl; [by exists a | done]. Qed.

(** The fields of a voice, for every provider key: the three branches of
    lines 96-113 agree on the description, and the branch of "openai"
    names its voices as the general branch would. *)
Lemma tts_voice_fields {U : UnicodeCase} key v l :
  tv_name (tts_voice key v l)
  = (normalize_language l ++ "-" ++ name_segment key ++ "-" ++ v)%string
  /\ tv_description (tts_voice key v l) = (key ++ "_" ++ v)%string
  /\ tv_languages (tts_voice key v l) = [l]
  /\ tv_installed (tts_voice key v l) = true
  /\ tv_version (tts_voice key v l) = None
  /\ tv_speakers (tts_voice key v l) = None.
Proof.
  unfold tts_voice, name_segment.
  destruct (String.eqb_spec key "google") as [->|Hg]; [done|].
  destruct (String.eqb_spec key "openai") as [->|Ho]; done.
Qed.

(** Whatever JSON value the table is, when lines 90-124 go through, every
    voice they built comes from a provider key of the table, a string
    among its voices and a string among its languages: it is named NL-P-V
    (with Chirp3-HD for P when the key is "google"), described as
    key_voice, installed, without version and speakers, and carries the
    one language tag it was built from, as it was written. *)
Theorem built_voices_follow_the_rules {U : UnicodeCase} (voices_data : json) (built : list TtsVoice) :
  synthesize voices_data = Ok built ->
  Forall (fun tv =>
            exists key v l,
              offers voices_data key v l
              /\ tv = tts_voice key v l
              /\ tv_name tv
                 = (normalize_language l ++ "-" ++ name_segment key ++ "-" ++ v)%string
              /\ tv_description tv = (key ++ "_" ++ v)%string
              /\ tv_languages tv = [l]
              /\ tv_installed tv = true
              /\ tv_version tv = None
              /\ tv_speakers tv = None) built.
Proof.
  intros H. apply Forall_forall. intros tv Htv.
  unfold synthesize in H. apply bind_ok_inv in H as (keys & Hkeys & H).
  destruct (for_each_ok_inv _ _ _ _ H Htv) as (key & block & Hkey & Hblock & Hin).
  unfold voices_loop in Hblock.
  apply bind_ok_inv in Hblock as (entry & Hentry & Hblock).
  apply bind_ok_inv in Hblock as (jvs & Hjvs & Hblock).
  apply bind_ok_inv in Hblock as (vitems & Hvitems & Hblock).
  destruct (for_each_ok_inv _ _ _ _ Hblock Hin) as (jv & row & Hjv & Hrow & Hin').
  unfold languages_loop in Hrow.
  apply bind_ok_inv in Hrow as (entry' & Hentry' & Hrow).
  rewrite Hentry in Hentry'. injection Hentry' as <-.
  apply bind_ok_inv in Hrow as (jls & Hjls & Hrow).
  apply bind_ok_inv in Hrow as (litems & Hlitems & Hrow).
  destruct (for_each_ok_inv _ _ _ _ Hrow Hin') as (jl & one & Hjl & Hone & Hin'').
  apply bind_ok_inv in Hone as (tv' & Hdesc & [= <-]).
  apply list_elem_of_singleton in Hin'' as ->.
  unfold describe in Hdesc.
  apply bind_ok_inv in Hdesc as (l & Hl & Hdesc).
  apply bind_ok_inv in Hdesc as (v & Hv & [= <-]).
  destruct jl; try done. injection Hl as ->.
  destruct jv; try done. injection Hv as ->.
  exists key, v, l. split.
  - by exists entry, jvs, vitems, jls, litems.
  - split; [done|]. apply tts_voice_fields.
Qed.

Lemma built_voices_follow_the_rules_witness :
  Forall (fun tv =>
            exists key v l,
              offers (table_json google_openai) key v l
              /\ tv = tts_voice key v l
              /\ tv_name tv
                 = (normalize_language l ++ "-" ++ name_segment key ++ "-" ++ v)%string
              /\ tv_description tv = (key ++ "_" ++ v)%string
              /\ tv_languages tv = [l]
              /\ tv_installed tv = true
              /\ tv_version tv = None
              /\ tv_speakers tv = None)
         [tts_voice "google" "Aria" "en_US"; tts_voice "openai" "Aria" "en_US"].
Proof.
  apply (built_voices_follow_the_rules (table_json google_openai)).
  vm_compute. reflexivity.
Defined.

(** ** Telling voices apart *)

Lemma append_inv_head (s a b : string) : (s ++ a)%string = (s ++ b)%string -> a = b.
Proof. induction s as [|c s IH]; simpl; [done|]. intros [= H]. auto. Qed.

Lemma length_append (a b : string) :
  String.length (a ++ b) = String.length a + String.length b.
Proof. induction a as [|c a IH]; simpl; [done | by rewrite IH]. Qed.

Lemma append_inv_tail (t : string) : forall a b : string,
  (a ++ t)%string = (b ++ t)%string -> a = b.
Proof.
  induction a as [|c a IH]; intros [|c' b] H; simpl in H.
  - done.
  - apply (f_equal String.length) in H. simpl in H.
    rewrite !length_append in H. simpl in H. lia.
  - apply (f_equal String.length) in H. simpl in H.
    rewrite !length_append in H. simpl in H. lia.
  - injection H as -> H. f_equal. by apply IH.
Qed.

Lemma append_nil_l (s : string) : ("" ++ s)%string = s.
Proof. reflexivity. Qed.

Lemma append_cons c (s t : string) : (String c s ++ t)%string = String c (s ++ t).
Proof. reflexivity. Qed.

Lemma key_voice_inj : forall k k' v v' : string,
  contains_char "_" k = false -> contains_char "_" k' = false ->
  (k ++ "_" ++ v)%string = (k' ++ "_" ++ v')%string ->
  k = k' /\ v = v'.
Proof.
  induction k as [|c k IH]; intros [|c' k'] v v' Hk Hk' H; simpl in *;
    rewrite ?append_cons, ?append_nil_l in H.
  - by injection H as ->.
  - injection H as <- _. by rewrite Ascii.eqb_refl in Hk'.
  - injection H as -> _. by rewrite Ascii.eqb_refl in Hk.
  - injection H as -> H.
    apply orb_false_iff in Hk as [_ Hk]. apply orb_false_iff in Hk' as [_ Hk'].
    destruct (IH k' v v' Hk Hk' H) as [-> ->]. done.
Qed.

(** Two voices with the same description have the same provider key and
    the same voice, provided the provider keys contain no underscore. *)
Theorem description_determines_provider_and_voice {U : UnicodeCase} (key key' v v' l l' : string) :
  contains_char "_" key = false -> contains_char "_" key' = false ->
  tv_description (tts_voice key v l) = tv_description (tts_voice key' v' l') ->
  key = key' /\ v = v'.
Proof.
  intros Hk Hk' H.
  destruct (tts_voice_fields key v l) as (_ & Hd & _).
  destruct (tts_voice_fields key' v' l') as (_ & Hd' & _).
  rewrite Hd, Hd' in H. by apply key_voice_inj.
Qed.

Lemma description_determines_provider_and_voice_witness :
  "openai" = "openai" /\ "Nova" = "Nova".
Proof.
  apply (description_determines_provider_and_voice
           "openai" "openai" "Nova" "Nova" "en_US" "de_DE"); reflexivity.
Defined.

(** Within one provider, two voices of the same language have the same
    name only if they are the same voice, and one voice gets the same
    name for two language tags exactly when the tags normalize to the
    same string (as "en_US" and "en-US" do). *)
Theorem names_within_a_provider {U : UnicodeCase} (key v v' l l' : string) :
  (tv_name (tts_voice key v l) = tv_name (tts_voice key v' l) <-> v = v')
  /\ (tv_name (tts_voice key v l) = tv_name (tts_voice key v l')
      <-> normalize_language l = normalize_language l').
Proof.
  destruct (tts_voice_fields key v l) as (Hn & _).
  destruct (tts_voice_fields key v' l) as (Hn' & _).
  destruct (tts_voice_fields key v l') as (Hn'' & _).
  rewrite Hn, Hn', Hn''. split; split.
  - intros H. do 4 apply append_inv_head in H. exact H.
  - by intros ->.
  - apply append_inv_tail.
  - by intros ->.
Qed.

(** ** The exceptions of the merge *)

Lemma py_in_raise v c e : py_in v c = Raise e -> e = TypeError.
Proof.
  destruct c, v; simpl; try done; by intros [= <-].
Qed.

Lemma py_append_raise c v e : py_append c v = Raise e -> e = AttributeError.
Proof. destruct c; simpl; by intros [= <-]. Qed.

Lemma py_get_raise d k default e : py_get d k default = Raise e -> e = AttributeError.
Proof. destruct d; simpl; by intros [= <-]. Qed.

Lemma py_iter_raise c e : py_iter c = Raise e -> e = TypeError.
Proof. destruct c; simpl; by intros [= <-]. Qed.

Lemma py_setitem_raise d k v e : py_setitem d k v = Raise e -> e = TypeError.
Proof. destruct d; simpl; by intros [= <-]. Qed.

Lemma store_field_entry_is_dict provider kk value :
  raises_only (entry_is_dict provider) (fun _ => False) (store_field provider kk value).
Proof.
  intros vd vd' r (t & ms & -> & Ht) H.
  rewrite (store_field_dict _ _ _ _ _ Ht) in H. injection H as <- <-.
  split; [|done]. eexists _, _. split; [done|]. apply dict_get_set_eq.
Qed.

Lemma merge_loop_entry_is_dict aliased provider k items : forall base,
  raises_only (entry_is_dict provider) attribute_or_type_error
              (merge_loop aliased provider k items base).
Proof.
  induction items as [|v items IH]; intros base vd vd' r HI H; simpl in H.
  - injection H as <- <-. by split.
  - apply mbind_inv in H as [(e & H & ->)|(vd1 & present & H1 & H)].
    + injection H as <- H. split; [done|]. intros e' [= <-].
      right. by eapply py_in_raise.
    + injection H1 as <- H1. destruct present; [by eapply IH|].
      apply mbind_inv in H as [(e & H & ->)|(vd1 & base' & H2 & H)].
      * injection H as <- H. split; [done|]. intros e' [= <-].
        left. by eapply py_append_raise.
      * injection H2 as <- H2.
        apply mbind_inv in H as [(e & H & ->)|(vd2 & [] & H3 & H)].
        -- destruct aliased; [|done].
           destruct (store_field_entry_is_dict _ _ _ _ _ _ HI H) as [_ Hf].
           by destruct (Hf e).
        -- eapply IH; [|exact H]. destruct aliased.
           ++ by destruct (store_field_entry_is_dict _ _ _ _ _ _ HI H3).
           ++ by injection H3 as <-.
Qed.

Lemma merge_field_raises k provider pdata vd vd' r :
  py_in (JStr provider) vd = Ok true ->
  merge_field k provider pdata vd = (vd', r) ->
  (forall e, r = Raise e -> attribute_or_type_error e)
  /\ (r = Ok tt -> entry_is_dict provider vd').
Proof.
  intros Hin H. unfold merge_field, mbind at 1 2 3 4 5, get, lift in H.
  destruct (py_getitem vd provider) as [entry|e0] eqn:Hentry.
  - destruct (py_get entry k (JArr [])) as [base|e1] eqn:Hbase.
    + assert (entry_is_dict provider vd) as HI.
      { destruct entry; try done. destruct vd as [| | | | |t]; try done.
        simpl in Hentry. destruct (dict_get provider t) eqn:E; [|done].
        injection Hentry as ->. by exists t, members. }
      destruct (py_get pdata k (JArr [])) as [extra|e2] eqn:Hextra.
      * destruct (py_iter extra) as [items|e3] eqn:Hitems.
        -- apply mbind_inv in H as [(e & H & ->)|(vd1 & merged & H1 & H)].
           ++ destruct (merge_loop_entry_is_dict _ _ _ _ _ _ _ _ HI H) as [_ He].
              split; [|done]. intros e' [= <-]. by apply He.
           ++ destruct (merge_loop_entry_is_dict _ _ _ _ _ _ _ _ HI H1) as [HI1 _].
              destruct (store_field_entry_is_dict _ _ _ _ _ _ HI1 H) as [HI2 Hf].
              split; [|done]. intros e He. by destruct (Hf e).
        -- injection H as <- <-. split; [|done]. intros e [= <-].
           right. by eapply py_iter_raise.
      * injection H as <- <-. split; [|done]. intros e [= <-].
        left. by eapply py_get_raise.
    + injection H as <- <-. split; [|done]. intros e [= <-].
      left. by eapply py_get_raise.
  - injection H as <- <-. split; [|done]. intros e [= <-].
    destruct vd as [| | | | |t]; simpl in Hentry;
      try (injection Hentry as <-; by right).
    simpl in Hin. unfold dict_mem in Hin.
    destruct (dict_get provider t); [done|]. by injection Hin.
Qed.

Lemma merge_provider_raises provider pdata vd vd' e :
  merge_provider provider pdata vd = (vd', Raise e) -> attribute_or_type_error e.
Proof.
  unfold merge_provider, mbind at 1 2, get, lift.
  destruct (py_in (JStr provider) vd) as [[|]|e0] eqn:Hin.
  - intros H. apply mbind_inv in H as [(e' & H & [= <-])|(vd1 & [] & H1 & H)].
    + by destruct (merge_field_raises _ _ _ _ _ _ Hin H) as [He _]; apply He.
    + destruct (merge_field_raises _ _ _ _ _ _ Hin H1) as [_ HI].
      destruct (HI eq_refl) as (t & ms & -> & Ht).
      eapply (merge_field_raises "languages" provider pdata (JObj t)); [|exact H|done].
      simpl. unfold dict_mem. by rewrite Ht.
  - unfold mbind, lift, put.
    destruct (py_setitem vd provider pdata) as [vd1|e1] eqn:Hset; [done|].
    intros [= _ <-]. right. by eapply py_setitem_raise.
  - intros [= _ <-]. right. by eapply py_in_raise.
Qed.

(** Whatever the two JSON values are, the merge of lines 69-84 raises
    nothing but AttributeError and TypeError; in particular it never
    raises KeyError, although it indexes [voices_data] by provider. *)
Theorem merge_raises_attribute_or_type_error (custom_data voices_data vd' : json) (e : exn) :
  merge_custom custom_data voices_data = (vd', Raise e) ->
  e = AttributeError \/ e = TypeError.
Proof.
  intros H. unfold merge_custom in H.
  apply mbind_inv in H as [(e' & H & [= <-])|(vd1 & items & H1 & H)].
  - injection H as _ H. left. destruct custom_data; simpl in H; congruence.
  - destruct (merge_items_raise _ _ _ _ H) as (merged & p & rest & t & _ & _ & Hp).
    by apply merge_provider_raises in Hp.
Qed.

Lemma merge_raises_attribute_or_type_error_witness :
  TypeError = AttributeError \/ TypeError = TypeError.
Proof.
  apply (merge_raises_attribute_or_type_error
           google_nova_bad_languages (table_json google_aria)
           (table_json [("google", {| voices := ["Aria"; "Nova"];
                                      languages := ["en_US"] |})])
           TypeError).
  vm_compute. reflexivity.
Defined.

(** ** An override only adds voices *)

Lemma elem_of_triples t k v l :
  (k, v, l) ∈ triples t
  <-> exists e, (k, e) ∈ t /\ v ∈ voices e /\ l ∈ languages e.
Proof.
  unfold triples, triples_of. rewrite list_elem_of_In, in_flat_map. split.
  - intros ([k' e] & Hin & H). apply in_flat_map in H as (v' & Hv & H).
    apply in_map_iff in H as (l' & [= <- <- <-] & Hl).
    exists e. by rewrite !list_elem_of_In.
  - intros (e & Hin & Hv & Hl). exists (k, e).
    rewrite <- list_elem_of_In. split; [done|].
    apply in_flat_map. exists v. rewrite <- list_elem_of_In. split; [done|].
    apply in_map_iff. exists l. by rewrite <- list_elem_of_In.
Qed.

Lemma merge_lists_base_subset (base extra : list string) :
  base ⊆ merge_lists base extra.
Proof. intros v Hv. rewrite merge_lists_additions, elem_of_app. by left. Qed.

Lemma triples_merge_tables b o :
  dict_wf b -> dict_wf o -> triples b ⊆ triples (merge_tables b o).
Proof.
  intros Hwb Hwo [[k v] l] Hin.
  apply elem_of_triples in Hin as (e & Hke & Hv & Hl).
  apply elem_of_triples.
  pose proof (merge_tables_get k o b Hwo) as Hget.
  rewrite (dict_get_elem k e b Hwb Hke) in Hget.
  destruct (dict_get k o) as [p|].
  - exists (merge_entry e p). split_and!.
    + by apply dict_get_Some_elem.
    + by apply merge_lists_base_subset.
    + by apply merge_lists_base_subset.
  - exists e. split_and!; [by apply dict_get_Some_elem | done | done].
Qed.

Lemma catalog_of_voices {U : UnicodeCase} version env log voices :
  main version env = (log, Ok (wyoming_info version voices, voices)) ->
  catalog version env = Ok (sorted voices).
Proof. intros H. unfold catalog. rewrite H. simpl. by rewrite app_nil_r. Qed.

(** With both files of the expected shape, every voice of the catalog
    that the builtin file alone gives is in the catalog with the override:
    a custom table adds voices and never takes one away. *)
Theorem override_only_adds_voices {U : UnicodeCase} version env jb b jo o :
  voices_file env = Ok jb -> represents jb b ->
  CUSTOM_VOICES_PATH env <> "" -> custom_file_exists env = Ok true ->
  custom_file env = Ok jo -> represents jo o ->
  exists alone merged,
    catalog version (without_custom env) = Ok alone
    /\ catalog version env = Ok merged
    /\ alone ⊆ merged.
Proof.
  intros Hb Hrb Hpath Hex Hc Hro.
  exists (sorted (map voice_of_triple (triples b))),
         (sorted (map voice_of_triple (triples (merge_tables b o)))).
  split_and!.
  - apply (catalog_of_voices _ _ []).
    rewrite (main_without_custom _ _ _ Hb). by rewrite (synthesize_rep jb b Hrb).
  - apply (catalog_of_voices _ _ []). by eapply main_rep.
  - intros tv. rewrite <- !sorted_perm, !list_elem_of_fmap.
    intros (x & -> & Hx). exists x. split; [done|].
    destruct Hrb as (? & _ & Hwb & _), Hro as (? & _ & Hwo & _).
    by apply triples_merge_tables.
Qed.

Lemma override_only_adds_voices_witness :
  exists alone merged,
    catalog "1.0.0"
      (without_custom
         (env_with_custom (Ok (table_json google_openai)) (Ok (table_json wider_override))))
    = Ok alone
    /\ catalog "1.0.0"
         (env_with_custom (Ok (table_json google_openai)) (Ok (table_json wider_override)))
       = Ok merged
    /\ alone ⊆ merged.
Proof.
  apply (override_only_adds_voices "1.0.0"
           (env_with_custom (Ok (table_json google_openai)) (Ok (table_json wider_override)))
           (table_json google_openai) google_openai
           (table_json wider_override) wider_override).
  - reflexivity.
  - apply represents_table_json. apply (bool_decide_unpack _). vm_compute. reflexivity.
  - discriminate.
  - reflexivity.
  - reflexivity.
  - apply represents_table_json. apply (bool_decide_unpack _). vm_compute. reflexivity.
Defined.
